(** * CpTrackBot: the message handler and the judge client of [index.js]

    A shallow embedding of the Telegram bot in [src/index.js]: the string
    operations the handler applies to an incoming text, the judge client
    [getTodaySolvedCount], and the [bot.on("message")] handler itself, written
    in a small state-and-exception monad over an explicit world (the group
    collection and the history of outbound calls). *)

From Stdlib Require Import ZArith NArith Ascii String DecimalString DecimalPos DecimalZ.
From stdpp Require Import base decidable countable list gmap.

Local Open Scope Z_scope.

(** ** JavaScript strings

    A JavaScript string is a sequence of UTF-16 code units; [includes],
    [startsWith], [split], [trim], [===] and the RegExp of the handler all
    work code unit by code unit. *)

Module JS.

Definition str := list N.

(** A literal all of whose characters are ASCII. *)
Definition lit (s : string) : str := map N_of_ascii (list_ascii_of_string s).

(** [s.startsWith(p)] *)
Fixpoint startsWith (s p : str) : bool :=
  match p, s with
  | [], _ => true
  | _ :: _, [] => false
  | a :: p', b :: s' => (N.eqb a b) && startsWith s' p'
  end.

(** [s.includes(p)] *)
Fixpoint includes (s p : str) : bool :=
  startsWith s p ||
  match s with
  | [] => false
  | _ :: s' => includes s' p
  end.

(** Case folding of the [i] flag (without [u]): a code unit is compared
    through its upper-case form, and a code unit of 128 or more is never
    folded onto an ASCII one; the pattern here is ASCII, so the only folding
    that can make a match is a-z onto A-Z. *)
Definition canonicalize (c : N) : N :=
  if (97 <=? c)%N && (c <=? 122)%N then (c - 32)%N else c.

Fixpoint startsWith_ci (s p : str) : bool :=
  match p, s with
  | [], _ => true
  | _ :: _, [] => false
  | a :: p', b :: s' =>
      (N.eqb (canonicalize a) (canonicalize b)) && startsWith_ci s' p'
  end.

(** [s.replace(new RegExp(p, 'gi'), '')] for a pattern [p] without RegExp
    metacharacters (a Telegram user name is [@] followed by letters, digits
    and underscores): the matches are found left to right and do not overlap.
    [skip] counts the code units of the current match still to be dropped. *)
Fixpoint remove_ci_from (p : str) (skip : nat) (s : str) : str :=
  match s with
  | [] => []
  | c :: s' =>
      match skip with
      | S k => remove_ci_from p k s'
      | O =>
          match p with
          | [] => c :: remove_ci_from p O s'
          | _ :: p' =>
              if startsWith_ci s p
              then remove_ci_from p (length p') s'
              else c :: remove_ci_from p O s'
          end
      end
  end.

Definition removeAll_ci (s p : str) : str := remove_ci_from p O s.

(** WhiteSpace and LineTerminator code units, the ones [trim] removes. *)
Definition isWhiteSpace (c : N) : bool :=
  ((9 <=? c) && (c <=? 13) || (c =? 32) || (c =? 160) || (c =? 5760)
   || (8192 <=? c) && (c <=? 8202) || (c =? 8232) || (c =? 8233)
   || (c =? 8239) || (c =? 8287) || (c =? 12288) || (c =? 65279))%N.

Fixpoint trimStart (s : str) : str :=
  match s with
  | [] => []
  | c :: s' => if isWhiteSpace c then trimStart s' else s
  end.

Definition trimEnd (s : str) : str := rev (trimStart (rev s)).

(** [s.trim()] *)
Definition trim (s : str) : str := trimEnd (trimStart s).

(** [s.split(sep)] for a separator of one code unit: the pieces between the
    separators, empty pieces included; never an empty array. *)
Fixpoint split (sep : N) (s : str) : list str :=
  match s with
  | [] => [[]]
  | c :: s' =>
      if N.eqb c sep then [] :: split sep s'
      else match split sep s' with
           | piece :: rest => (c :: piece) :: rest
           | [] => [[c]]
           end
  end.

(** Truthiness of [a[i]] for an array of strings: [undefined] and the empty
    string are falsy. *)
Definition truthy (v : option str) : bool :=
  match v with
  | Some (_ :: _) => true
  | _ => false
  end.

(** [`${n}`] for an integer [n] (of magnitude below 10^21, where Number
    to String is the plain decimal numeral). *)
Definition ofZ (n : Z) : str := lit (NilZero.string_of_int (Z.to_int n)).

Definition ofNat (n : nat) : str := ofZ (Z.of_nat n).

(** The code units of the decimal digits. *)
Definition is_digit (c : N) : Prop := (48 <= c <= 57)%N.

End JS.

(** ** Data

    The submission objects of the judge's [user.status] reply, the documents
    of the [groups] collection and the chat messages, each with the fields
    the program reads. *)

Record Problem := {
  contestId : option Z;      (* absent for problems outside a contest *)
  index : JS.str
}.

Record Submission := {
  verdict : option JS.str;   (* absent while the submission is being judged *)
  creationTimeSeconds : Z;
  problem : Problem
}.

Record ApiData := {
  status : JS.str;
  result : list Submission
}.

Record User := { handle : JS.str }.

Record Group := {
  groupId : Z;
  groupName : option JS.str;
  users : list User
}.

Record Chat := {
  chat_id : Z;
  chat_type : JS.str;
  chat_title : option JS.str
}.

Record Message := {
  msg_chat : Chat;
  msg_text : option JS.str
}.

(** ** The world and the calls that leave the process

    [db] is the [groups] collection, its documents in insertion order (the
    collection has no uniqueness constraint).  [trace] is the history of the
    calls the program made to the store, to the chat platform and to the
    judge, oldest first.  Console output is not part of the model. *)

Inductive Event :=
| FindOne (gid : Z)                                   (* groupsCollection.findOne({groupId}) *)
| InsertOne (doc : Group)                             (* groupsCollection.insertOne(doc) *)
| UpdateOne (gid : Z) (us : list User)                (* updateOne({groupId}, {$set: {users}}) *)
| SendMessage (chatId : Z) (text : JS.str) (markdown : bool)  (* bot.sendMessage *)
| UserStatus (h : JS.str).                            (* axios.get of user.status?handle= *)

Record World := {
  db : list Group;
  trace : list Event
}.

(** What the program does not decide: the bot's mention token (set once at
    start-up), and, as functions of the history up to and including the call
    being made, whether a store call throws, whether a send is rejected, what
    the judge answers ([None]: the request itself throws), and the host
    clock's [new Date().setHours(0, 0, 0, 0)]. *)
Record Env := {
  botUsername : JS.str;
  store_throws : list Event -> bool;
  send_rejects : list Event -> bool;
  user_status : list Event -> option ApiData;
  local_midnight_ms : list Event -> Z
}.

Inductive Err :=
| StoreError      (* thrown by the persistence layer *)
| SendError       (* the chat platform rejected a send *)
| RequestError    (* axios.get threw *)
| ApiError.       (* new Error("Invalid handle or API error") *)

(** How the promise of an async call settles. *)
Inductive Settled := Fulfilled | Rejected (e : Err).

(** How a piece of the handler's body completes: normally, by a [return]
    out of the handler (with the promise returned, [Fulfilled] for a bare
    [return]), or by a throw. *)
Inductive Completion (A : Type) :=
| Normal (a : A)
| Return (p : Settled)
| Throw (e : Err).
Arguments Normal {A} a.
Arguments Return {A} p.
Arguments Throw {A} e.

Definition M (A : Type) : Type := World -> Completion A * World.

Definition ret {A} (a : A) : M A := fun w => (Normal a, w).

Definition bind {A B} (m : M A) (k : A -> M B) : M B :=
  fun w =>
    match m w with
    | (Normal a, w') => k a w'
    | (Return p, w') => (Return p, w')
    | (Throw e, w') => (Throw e, w')
    end.

Definition throw {A} (e : Err) : M A := fun w => (Throw e, w).

(** [try { body } catch (err) { handler }]: only a throw reaches the
    handler; a [return] inside [body] leaves the function. *)
Definition try_catch {A} (body : M A) (handler : Err -> M A) : M A :=
  fun w =>
    match body w with
    | (Throw e, w') => handler e w'
    | r => r
    end.

Declare Scope js_scope.
Delimit Scope js_scope with js.
Notation "x <- c ;; k" := (bind c (fun x => k))
  (at level 100, c at next level, right associativity) : js_scope.
Notation "c ;;; k" := (bind c (fun _ => k))
  (at level 100, right associativity) : js_scope.
Local Open Scope js_scope.

Definition called (e : Event) (w : World) : World :=
  {| db := db w; trace := trace w ++ [e] |}.

(** *** The store: first match for [findOne] and [updateOne], append for
    [insertOne]; a call that throws leaves the collection as it was. *)

Definition matches (gid : Z) (g : Group) : bool := groupId g =? gid.

Fixpoint set_users (gid : Z) (us : list User) (docs : list Group) : list Group :=
  match docs with
  | [] => []
  | g :: docs' =>
      if matches gid g
      then {| groupId := groupId g; groupName := groupName g; users := us |} :: docs'
      else g :: set_users gid us docs'
  end.

Definition findOne (env : Env) (gid : Z) : M (option Group) :=
  fun w =>
    let w' := called (FindOne gid) w in
    if store_throws env (trace w') then (Throw StoreError, w')
    else (Normal (List.find (matches gid) (db w)), w').

Definition insertOne (env : Env) (doc : Group) : M unit :=
  fun w =>
    let w' := called (InsertOne doc) w in
    if store_throws env (trace w') then (Throw StoreError, w')
    else (Normal tt, {| db := db w ++ [doc]; trace := trace w' |}).

Definition updateOne (env : Env) (gid : Z) (us : list User) : M unit :=
  fun w =>
    let w' := called (UpdateOne gid us) w in
    if store_throws env (trace w') then (Throw StoreError, w')
    else (Normal tt, {| db := set_users gid us (db w); trace := trace w' |}).

(** *** The chat platform *)

Definition send_settles (env : Env) (w' : World) : Settled :=
  if send_rejects env (trace w') then Rejected SendError else Fulfilled.

(** [await bot.sendMessage(chatId, text, opts)] *)
Definition sendMessage (env : Env) (chatId : Z) (text : JS.str) (markdown : bool) : M unit :=
  fun w =>
    let w' := called (SendMessage chatId text markdown) w in
    match send_settles env w' with
    | Fulfilled => (Normal tt, w')
    | Rejected e => (Throw e, w')
    end.

(** [return bot.sendMessage(chatId, text, opts)]: the call is made and its
    promise is handed to the caller without being awaited. *)
Definition return_sendMessage {A} (env : Env) (chatId : Z) (text : JS.str) (markdown : bool) : M A :=
  fun w =>
    let w' := called (SendMessage chatId text markdown) w in
    (Return (send_settles env w'), w').

(** ** The judge client: [getTodaySolvedCount] *)

(** [`${sub.problem.contestId}-${sub.problem.index}`] *)
Definition contestId_text (c : option Z) : JS.str :=
  match c with
  | Some n => JS.ofZ n
  | None => JS.lit "undefined"
  end.

Definition problemId (p : Problem) : JS.str :=
  contestId_text (contestId p) ++ JS.lit "-" ++ index p.

(** [sub.verdict === "OK" && sub.creationTimeSeconds >= startOfToday] *)
Definition counted (startOfToday : Z) (sub : Submission) : bool :=
  bool_decide (verdict sub = Some (JS.lit "OK"))
  && (startOfToday <=? creationTimeSeconds sub).

(** The loop over the submissions, adding to the set [solved]. *)
Fixpoint collect (startOfToday : Z) (submissions : list Submission)
    (solved : gset JS.str) : gset JS.str :=
  match submissions with
  | [] => solved
  | sub :: rest =>
      collect startOfToday rest
        (if counted startOfToday sub then {[ problemId (problem sub) ]} ∪ solved
         else solved)
  end.

(** [Math.floor(new Date().setHours(0, 0, 0, 0) / 1000)] *)
Definition startOfToday (env : Env) (w : World) : Z :=
  local_midnight_ms env (trace w) / 1000.

(** [axios.get(...)] and [res.data] *)
Definition get_user_status (env : Env) (h : JS.str) : M ApiData :=
  fun w =>
    let w' := called (UserStatus h) w in
    match user_status env (trace w') with
    | Some data => (Normal data, w')
    | None => (Throw RequestError, w')
    end.

Definition getTodaySolvedCount (env : Env) (h : JS.str) : M nat :=
  data <- get_user_status env h ;;
  if negb (bool_decide (status data = JS.lit "OK")) then throw ApiError
  else
    fun w =>
      let solved := collect (startOfToday env w) (result data) ∅ in
      (Normal (size solved), w).

(** ** The replies *)

Module Reply.

(* U+274C, U+2705, U+26A0 U+FE0F and U+1F4DD (a surrogate pair) *)
Definition cross_mark : JS.str := [10060%N].
Definition check_mark : JS.str := [9989%N].
Definition warning_sign : JS.str := [9888%N; 65039%N].
Definition memo : JS.str := [55357%N; 56541%N].

Definition usage : JS.str :=
  cross_mark ++ JS.lit " Please provide a Codeforces handle. Example: `/add tourist`".

Definition created (h : JS.str) : JS.str :=
  check_mark ++ JS.lit " Added " ++ h ++ JS.lit " and created new tracking for this group.".

Definition already_tracked (h : JS.str) : JS.str :=
  warning_sign ++ JS.lit " " ++ h ++ JS.lit " is already being tracked.".

Definition added (h : JS.str) : JS.str :=
  check_mark ++ JS.lit " Added " ++ h ++ JS.lit " to tracking list.".

Definition add_failed : JS.str :=
  cross_mark ++ JS.lit " Something went wrong while adding the handle.".

Definition solved (h : JS.str) (solve : nat) : JS.str :=
  memo ++ JS.lit " " ++ h ++ JS.lit " solved " ++ JS.ofNat solve ++ JS.lit " problems today.".

Definition fetch_failed (h : JS.str) : JS.str :=
  cross_mark ++ JS.lit " Could not fetch data for " ++ h ++ JS.lit ".".

Definition no_users : JS.str :=
  JS.lit "No users are being tracked in this group. Use /add <handle> to add someone.".

Definition report_failed : JS.str :=
  cross_mark ++ JS.lit " Could not fetch Codeforces data. Make sure the handles are correct.".

End Reply.

(** ** The message handler: [bot.on("message", async (msg) => ...)]

    The handler is registered after [connectDB] has returned, so
    [groupsCollection] is set whenever it runs. *)

(** [msg.text || ''] *)
Definition text_of (msg : Message) : JS.str :=
  match msg_text msg with
  | Some t => t
  | None => []
  end.

(** [msg.chat.type !== "private" && !text.includes(botUsername)] *)
Definition ignored (env : Env) (msg : Message) : bool :=
  negb (bool_decide (chat_type (msg_chat msg) = JS.lit "private"))
  && negb (JS.includes (text_of msg) (botUsername env)).

(** [text.replace(new RegExp(botUsername, 'gi'), '').trim()] *)
Definition cleanedText (env : Env) (msg : Message) : JS.str :=
  JS.trim (JS.removeAll_ci (text_of msg) (botUsername env)).

(** [cleanedText.split(" ")[1]] *)
Definition handle_arg (cleaned : JS.str) : option JS.str :=
  JS.split 32 cleaned !! 1%nat.

(** [existing.users.find(u => u.handle === handle)] *)
Definition find_user (h : JS.str) (us : list User) : option User :=
  List.find (fun u => bool_decide (handle u = h)) us.

(** The [try] block of the [/add] command and its [catch]. *)
Definition add_handle (env : Env) (msg : Message) (h : JS.str) : M unit :=
  let chatId := chat_id (msg_chat msg) in
  try_catch
    (existing <- findOne env chatId ;;
     match existing with
     | None =>
         insertOne env {| groupId := chatId;
                          groupName := chat_title (msg_chat msg);
                          users := [ {| handle := h |} ] |} ;;;
         sendMessage env chatId (Reply.created h) false
     | Some existing =>
         match find_user h (users existing) with
         | Some _ => return_sendMessage env chatId (Reply.already_tracked h) false
         | None =>
             let pushed := users existing ++ [ {| handle := h |} ] in
             updateOne env chatId pushed ;;;
             sendMessage env chatId (Reply.added h) false
         end
     end)
    (fun _ => sendMessage env chatId Reply.add_failed false).

(** The branch taken when [cleanedText.startsWith("/add")]. *)
Definition add_command (env : Env) (msg : Message) (cleaned : JS.str) : M unit :=
  let handle := handle_arg cleaned in
  if JS.truthy handle
  then add_handle env msg (default [] handle) ;;; (fun w => (Return Fulfilled, w))
  else return_sendMessage env (chat_id (msg_chat msg)) Reply.usage true.

(** One turn of the loop over [grpdata.users], with its own [try]/[catch]. *)
Definition report_user (env : Env) (chatId : Z) (u : User) : M unit :=
  try_catch
    (solve <- getTodaySolvedCount env (handle u) ;;
     sendMessage env chatId (Reply.solved (handle u) solve) false)
    (fun _ => sendMessage env chatId (Reply.fetch_failed (handle u)) false).

Fixpoint report_users (env : Env) (chatId : Z) (us : list User) : M unit :=
  match us with
  | [] => ret tt
  | u :: rest => report_user env chatId u ;;; report_users env chatId rest
  end.

(** The default branch: today's solved counts of the tracked handles. *)
Definition report (env : Env) (msg : Message) : M unit :=
  let chatId := chat_id (msg_chat msg) in
  try_catch
    (grpdata <- findOne env chatId ;;
     match grpdata with
     | Some g =>
         match users g with
         | _ :: _ => report_users env chatId (users g)
         | [] => sendMessage env chatId Reply.no_users false
         end
     | None => sendMessage env chatId Reply.no_users false
     end)
    (fun _ => sendMessage env chatId Reply.report_failed false).

Definition on_message (env : Env) (msg : Message) : M unit :=
  if ignored env msg then (fun w => (Return Fulfilled, w))
  else
    let cleaned := cleanedText env msg in
    if JS.startsWith cleaned (JS.lit "/add") then add_command env msg cleaned
    else report env msg.

(** The promise of the handler and the world it leaves. *)
Definition settle {A} (c : Completion A) : Settled :=
  match c with
  | Normal _ => Fulfilled
  | Return p => p
  | Throw e => Rejected e
  end.

Definition handle_message (env : Env) (msg : Message) (w : World) : Settled * World :=
  let (c, w') := on_message env msg w in (settle c, w').


Definition judge_calls (tr : list Event) : list JS.str :=
  omap (fun e => match e with UserStatus h => Some h | _ => None end) tr.

Definition is_store_call (e : Event) : bool :=
  match e with
  | FindOne _ | InsertOne _ | UpdateOne _ _ => true
  | _ => false
  end.

Definition store_calls (tr : list Event) : list Event :=
  List.filter is_store_call tr.

(** ** The specification's notions, for comparison with the code *)

Module Spec.

(** The identity of a problem: its contest and its index. *)
Definition identity (p : Problem) : option Z * JS.str := (contestId p, index p).

(** A submission with the accepted verdict, which the judge writes [OK]. *)
Definition accepted (sub : Submission) : Prop := verdict sub = Some (JS.lit "OK").

(** The distinct problem identities among the accepted submissions created
    at or after the cutoff. *)
Definition solved_identities (cutoff : Z) (subs : list Submission)
    : gset (option Z * JS.str) :=
  list_to_set
    (identity ∘ problem <$>
       filter (fun sub => accepted sub ∧ cutoff ≤ creationTimeSeconds sub) subs).

(** The text contains the pattern in some letter case. *)
Fixpoint includes_ci (s p : JS.str) : bool :=
  JS.startsWith_ci s p ||
  match s with
  | [] => false
  | _ :: s' => includes_ci s' p
  end.

(** The pieces of a text between whitespace code units, empty ones included,
    and its whitespace-separated tokens: the pieces that are not empty. *)
Fixpoint whitespace_pieces (s : JS.str) : list JS.str :=
  match s with
  | [] => [[]]
  | c :: s' =>
      if JS.isWhiteSpace c then [] :: whitespace_pieces s'
      else match whitespace_pieces s' with
           | piece :: rest => (c :: piece) :: rest
           | [] => [[c]]
           end
  end.

Definition whitespace_tokens (s : JS.str) : list JS.str :=
  List.filter (fun t => match t with [] => false | _ => true end)
              (whitespace_pieces s).

Definition second_whitespace_token (s : JS.str) : option JS.str :=
  whitespace_tokens s !! 1%nat.

End Spec.

(** No store call throws and no send is rejected. *)
Definition calm (env : Env) : Prop :=
  (∀ tr, store_throws env tr = false) ∧ (∀ tr, send_rejects env tr = false).

(** The document of a chat, as [findOne] sees it. *)
Definition record_of (chatId : Z) (w : World) : option Group :=
  List.find (matches chatId) (db w).

(** ** A concrete setting: one bot, one judge, two chats *)

Module Demo.

Definition bot : JS.str := JS.lit "@CpTrackBuddybot".

Definition midnight_ms : Z := 1762041600000.
Definition today : Z := 1762041600.

Definition sub (v : string) (t c : Z) (i : string) : Submission :=
  {| verdict := Some (JS.lit v); creationTimeSeconds := t;
     problem := {| contestId := Some c; index := JS.lit i |} |}.

(** Two accepted submissions to 1900 A today, one accepted submission to
    1899 B yesterday. *)
Definition twice_today_once_yesterday : list Submission :=
  [ sub "OK" (today + 7200) 1900 "A";
    sub "OK" (today + 60) 1900 "A";
    sub "OK" (today - 3600) 1899 "B" ].

(** Three problems solved today, among other submissions. *)
Definition three_today : list Submission :=
  [ sub "OK" (today + 9000) 1900 "C";
    sub "WRONG_ANSWER" (today + 8000) 1900 "C";
    sub "OK" (today + 7200) 1900 "A";
    sub "OK" (today + 60) 1900 "A";
    sub "OK" today 19 "A";
    sub "WRONG_ANSWER" (today + 30) 1900 "B";
    sub "OK" (today - 1) 1899 "B" ].

(** The judge knows [h1] and [twice]; any other request fails. *)
Definition judge (tr : list Event) : option ApiData :=
  match last tr with
  | Some (UserStatus h) =>
      if bool_decide (h = JS.lit "h1")
      then Some {| status := JS.lit "OK"; result := three_today |}
      else if bool_decide (h = JS.lit "twice")
      then Some {| status := JS.lit "OK"; result := twice_today_once_yesterday |}
      else None
  | _ => None
  end.

Definition env : Env :=
  {| botUsername := bot;
     store_throws := fun _ => false;
     send_rejects := fun _ => false;
     user_status := judge;
     local_midnight_ms := fun _ => midnight_ms |}.

(** The same setting with the store out of reach, and with the chat
    platform rejecting every send. *)
Definition store_down : Env :=
  {| botUsername := bot;
     store_throws := fun _ => true;
     send_rejects := fun _ => false;
     user_status := judge;
     local_midnight_ms := fun _ => midnight_ms |}.

Definition send_down : Env :=
  {| botUsername := bot;
     store_throws := fun _ => false;
     send_rejects := fun _ => true;
     user_status := judge;
     local_midnight_ms := fun _ => midnight_ms |}.

(** The same setting with a store that can be read and throws on every
    write. *)
Definition read_only : Env :=
  {| botUsername := bot;
     store_throws := fun tr => match last tr with
                               | Some (FindOne _) => false
                               | _ => true
                               end;
     send_rejects := fun _ => false;
     user_status := judge;
     local_midnight_ms := fun _ => midnight_ms |}.

Definition private_chat : Chat :=
  {| chat_id := 42; chat_type := JS.lit "private"; chat_title := None |}.

Definition group_chat : Chat :=
  {| chat_id := -1001; chat_type := JS.lit "supergroup";
     chat_title := Some (JS.lit "CP club") |}.

Definition private_msg (t : string) : Message :=
  {| msg_chat := private_chat; msg_text := Some (JS.lit t) |}.

Definition group_msg (t : string) : Message :=
  {| msg_chat := group_chat; msg_text := Some (JS.lit t) |}.

Definition user (h : string) : User := {| handle := JS.lit h |}.

Definition tracking (c : Chat) (hs : list string) : Group :=
  {| groupId := chat_id c; groupName := chat_title c; users := user <$> hs |}.

Definition fresh : World := {| db := []; trace := [] |}.

Definition with_docs (docs : list Group) : World := {| db := docs; trace := [] |}.

End Demo.

(** ** Start-up values: the webhook URL and the mention token *)

(** [`https://your-service.onrender.com/webhook/${TOKEN}`] *)
Definition explicitWebhook (TOKEN : JS.str) : JS.str :=
  JS.lit "https://your-service.onrender.com/webhook/" ++ TOKEN.

(** [renderUrl.replace(/\/$/, '')]: a slash at the very end is removed. *)
Definition dropFinalSlash (s : JS.str) : JS.str :=
  match rev s with
  | 47%N :: r => rev r
  | _ => s
  end.

(** [explicitWebhook || (renderUrl ? `${...}/webhook/${TOKEN}` : null)],
    with [renderUrl] the environment variable [RENDER_EXTERNAL_URL], absent
    for [None]. *)
Definition WEBHOOK_URL (TOKEN : JS.str) (renderUrl : option JS.str) : option JS.str :=
  if JS.truthy (Some (explicitWebhook TOKEN)) then Some (explicitWebhook TOKEN)
  else if JS.truthy renderUrl
       then Some (dropFinalSlash (default [] renderUrl) ++ JS.lit "/webhook/" ++ TOKEN)
       else None.

(** The path of the route [app.post(`/webhook/${TOKEN}`, ...)]. *)
Definition webhook_route (TOKEN : JS.str) : JS.str := JS.lit "/webhook/" ++ TOKEN.

(** What [await bot.getMe()] may do: throw, or give [me], that may be
    missing, with a [username], that may be missing. *)
Inductive GetMe :=
| GetMeThrows
| GetMeGives (me : option (option JS.str)).

(** [let botUsername = '@CpTrackBuddybot'], then in [start], when
    [me && me.username], [botUsername = `@${me.username}`]. *)
Definition botUsername_after (r : GetMe) : JS.str :=
  match r with
  | GetMeGives (Some username) =>
      if JS.truthy username then JS.lit "@" ++ default [] username
      else JS.lit "@CpTrackBuddybot"
  | _ => JS.lit "@CpTrackBuddybot"
  end.

(** ** What a run adds to the history, and what the collection keeps *)

(** A relation between the world before and the world after that every
    run of [m] satisfies. *)
Definition keeps {A} (R : World → World → Prop) (m : M A) : Prop :=
  ∀ w, R w (m w).2.

(** The history went on, by calls that all satisfy [P]. *)
Definition went_on (P : Event → bool) (w w' : World) : Prop :=
  ∃ evs, trace w' = trace w ++ evs ∧ forallb P evs = true.

(** A call that concerns the chat [chatId]: a send to it, a store call on
    its identifier; or a request to the judge, which names no chat. *)
Definition concerns (chatId : Z) (e : Event) : bool :=
  match e with
  | FindOne gid | UpdateOne gid _ => gid =? chatId
  | InsertOne doc => groupId doc =? chatId
  | SendMessage c _ _ => c =? chatId
  | UserStatus _ => true
  end.

Definition is_write (e : Event) : bool :=
  match e with
  | InsertOne _ | UpdateOne _ _ => true
  | _ => false
  end.

Definition is_send (e : Event) : bool :=
  match e with
  | SendMessage _ _ _ => true
  | _ => false
  end.

Definition any_call (e : Event) : bool := true.

(** The history went on by calls that satisfy [P], and the collection is
    what it was. *)
Definition unchanged (P : Event → bool) (w w' : World) : Prop :=
  went_on P w w' ∧ db w' = db w.

(** The history went on, and a message was sent. *)
Definition replied (w w' : World) : Prop :=
  ∃ evs, trace w' = trace w ++ evs ∧ existsb is_send evs = true.

(** Every run of [m] sends a message, unless it ends by a throw. *)
Definition replies_or_throws {A} (m : M A) : Prop :=
  ∀ w, match m w with
       | (Throw _, w') => went_on any_call w w'
       | (_, w') => replied w w'
       end.

(** A completion that is neither a throw nor the return of a rejected
    promise, and one that is not the return of a rejected promise. *)
Definition settles_well {A} (c : Completion A) : Prop :=
  match c with
  | Return (Rejected _) | Throw _ => False
  | _ => True
  end.

Definition returns_well {A} (c : Completion A) : Prop :=
  match c with
  | Return (Rejected _) => False
  | _ => True
  end.

(** No document lists a handle twice. *)
Definition unique_handles (docs : list Group) : Prop :=
  Forall (fun g => NoDup (handle <$> users g)) docs.

(** No two documents are for the same chat. *)
Definition one_record_per_chat (docs : list Group) : Prop :=
  NoDup (groupId <$> docs).

(** Every listed handle is a non-empty text without a space. *)
Definition handles_are_words (docs : list Group) : Prop :=
  Forall (fun g => Forall (fun u => handle u ≠ [] ∧ 32%N ∉ handle u) (users g)) docs.

(** A document as it was, but for users added at the end of its list. *)
Definition grown (g g' : Group) : Prop :=
  groupId g' = groupId g ∧ groupName g' = groupName g
  ∧ users g `prefix_of` users g'.

(** The collection as it was, but for grown documents and new documents at
    the end. *)
Definition grown_db (docs docs' : list Group) : Prop :=
  ∃ old more, docs' = old ++ more ∧ Forall2 grown docs old.


(** [pieces.join(sep)] for a separator of one code unit. *)
Fixpoint join (sep : N) (pieces : list JS.str) : JS.str :=
  match pieces with
  | [] => []
  | [piece] => piece
  | piece :: rest => piece ++ sep :: join sep rest
  end.

(** * Properties *)

(** ** The string operations on sample texts *)

Example split_two_spaces :
  JS.split 32 (JS.lit "/add  tourist") = [JS.lit "/add"; []; JS.lit "tourist"].
Proof. reflexivity. Qed.

Example trim_ex : JS.trim (JS.lit "  /add x  ") = JS.lit "/add x".
Proof. reflexivity. Qed.

Example remove_ex :
  JS.removeAll_ci (JS.lit "@bot /add @BoT x@BOT") (JS.lit "@Bot") = JS.lit " /add  x".
Proof. reflexivity. Qed.

Example ofZ_ex : JS.ofZ 1234 = JS.lit "1234" /\ JS.ofZ (-5) = JS.lit "-5" /\ JS.ofZ 0 = JS.lit "0".
Proof. repeat split; reflexivity. Qed.

(** ** Literals and numerals *)

Lemma lit_cons (a : ascii) (s : string) :
  JS.lit (String a s) = N_of_ascii a :: JS.lit s.
Proof. reflexivity. Qed.

Lemma lit_inj (s t : string) : JS.lit s = JS.lit t → s = t.
Proof.
  revert t. induction s as [|a s IH]; intros [|b t] E; try discriminate.
  - reflexivity.
  - rewrite !lit_cons in E. injection E as Eab Est.
    f_equal; [| now apply IH].
    rewrite <- (ascii_N_embedding a), <- (ascii_N_embedding b). now rewrite Eab.
Qed.

Lemma uint_digits (d : Decimal.uint) :
  Forall JS.is_digit (JS.lit (NilEmpty.string_of_uint d)).
Proof.
  induction d; cbn [NilEmpty.string_of_uint]; try rewrite lit_cons;
    constructor; try assumption; unfold JS.is_digit; cbn; lia.
Qed.

Lemma uint_nonempty (d : Decimal.uint) :
  JS.lit (NilZero.string_of_uint d) ≠ [].
Proof. destruct d; discriminate. Qed.

Lemma uint_zero_digits (d : Decimal.uint) :
  Forall JS.is_digit (JS.lit (NilZero.string_of_uint d)).
Proof.
  destruct d; try apply uint_digits.
  repeat constructor; unfold JS.is_digit; cbn; lia.
Qed.

(** A numeral is a run of digits, after a minus sign when negative. *)
Lemma ofZ_shape (n : Z) :
  ∃ ds, Forall JS.is_digit ds ∧ ds ≠ [] ∧
        JS.ofZ n = (if n <? 0 then [45%N] else []) ++ ds.
Proof.
  unfold JS.ofZ. destruct n as [|p|p]; cbn [Z.to_int Z.ltb Z.compare].
  - exists (JS.lit "0"). repeat split; [| discriminate].
    repeat constructor; unfold JS.is_digit; cbn; lia.
  - exists (JS.lit (NilZero.string_of_uint (Pos.to_uint p))).
    split; [apply uint_zero_digits|]. split; [apply uint_nonempty | reflexivity].
  - exists (JS.lit (NilZero.string_of_uint (Pos.to_uint p))).
    split; [apply uint_zero_digits|]. split; [apply uint_nonempty | reflexivity].
Qed.

Lemma ofZ_inj (m n : Z) : JS.ofZ m = JS.ofZ n → m = n.
Proof.
  intros E. apply lit_inj in E.
  assert (R : ∀ z, NilZero.int_of_string (NilZero.string_of_int (Z.to_int z))
                   = Some (Z.to_int z)).
  { intros z. apply NilZero.isi; destruct z; cbn; try discriminate;
      intros [= H]; now apply DecimalPos.Unsigned.to_uint_nonnil in H. }
  pose proof (R m) as Rm. rewrite E, R in Rm. injection Rm as Rm.
  rewrite <- (DecimalZ.of_to m), <- (DecimalZ.of_to n). now rewrite Rm.
Qed.

(** Two texts that agree, each a run of digits followed by a hyphen, agree
    on the digits and on what follows the hyphen. *)
Lemma digits_hyphen_unique (d1 d2 r1 r2 : JS.str) :
  Forall JS.is_digit d1 → Forall JS.is_digit d2 →
  d1 ++ 45%N :: r1 = d2 ++ 45%N :: r2 → d1 = d2 ∧ r1 = r2.
Proof.
  intros H1. revert d2. induction H1 as [|c d1 Hc _ IH]; intros d2 H2 E.
  - destruct H2 as [|c' d2 Hc' _]; cbn in E.
    + injection E as ->. auto.
    + injection E as <- _. unfold JS.is_digit in Hc'. lia.
  - destruct H2 as [|c' d2 Hc' H2]; cbn in E.
    + injection E as -> _. unfold JS.is_digit in Hc. lia.
    + injection E as -> E. destruct (IH d2 H2 E) as [-> ->]. auto.
Qed.

Lemma contestId_text_hyphen_unique (c1 c2 : option Z) (r1 r2 : JS.str) :
  contestId_text c1 ++ 45%N :: r1 = contestId_text c2 ++ 45%N :: r2 →
  c1 = c2 ∧ r1 = r2.
Proof.
  assert (U : ∀ n r r', JS.lit "undefined" ++ r ≠ JS.ofZ n ++ r').
  { intros n r r' E. destruct (ofZ_shape n) as (ds & Hds & Hne & En).
    rewrite En in E. destruct (n <? 0); cbn in E; [discriminate|].
    destruct Hds as [|c ds Hc _]; [done|]. injection E as <- _.
    unfold JS.is_digit in Hc. lia. }
  destruct c1 as [m|], c2 as [n|]; cbn [contestId_text]; intros E.
  - destruct (ofZ_shape m) as (dm & Hdm & Hm0 & Em).
    destruct (ofZ_shape n) as (dn & Hdn & Hn0 & En).
    assert (G : dm = dn ∧ r1 = r2 ∧ (m <? 0) = (n <? 0)).
    { rewrite Em, En in E.
      destruct (m <? 0), (n <? 0); cbn in E.
      - injection E as E. destruct (digits_hyphen_unique _ _ _ _ Hdm Hdn E); auto.
      - destruct Hdn as [|c dn Hc _]; [done|]. injection E as <- _.
        unfold JS.is_digit in Hc. lia.
      - destruct Hdm as [|c dm Hc _]; [done|]. injection E as -> _.
        unfold JS.is_digit in Hc. lia.
      - destruct (digits_hyphen_unique _ _ _ _ Hdm Hdn E); auto. }
    destruct G as (-> & -> & Es). split; [|reflexivity].
    f_equal. apply ofZ_inj. rewrite Em, En, Es. reflexivity.
  - symmetry in E. now apply U in E.
  - now apply U in E.
  - apply app_inv_head in E. injection E as ->. auto.
Qed.

(** The text key of the set [solved] determines the problem's identity. *)
Lemma problemId_identity (p q : Problem) :
  problemId p = problemId q → Spec.identity p = Spec.identity q.
Proof.
  unfold problemId, Spec.identity. intros E.
  change (JS.lit "-") with [45%N] in E. cbn [app] in E.
  destruct (contestId_text_hyphen_unique _ _ _ _ E) as [-> ->]. reflexivity.
Qed.

(** ** The judge client *)

Lemma size_add `{Countable A} (a : A) (X : gset A) :
  size ({[ a ]} ∪ X) = if decide (a ∈ X) then size X else S (size X).
Proof.
  destruct (decide (a ∈ X)) as [Hin|Hout].
  - f_equal. set_solver.
  - rewrite size_union by set_solver. now rewrite size_singleton.
Qed.

(** Two ways of naming the elements of a list that identify the same
    elements give sets of the same size. *)
Lemma size_list_to_set_fmap `{Countable B} `{Countable C} {A}
    (f : A → B) (g : A → C) (l : list A) :
  (∀ x y, f x = f y ↔ g x = g y) →
  size (list_to_set (f <$> l) : gset B) = size (list_to_set (g <$> l) : gset C).
Proof.
  intros Hfg. induction l as [|x l IH]; [reflexivity|].
  rewrite !fmap_cons, !list_to_set_cons, !size_add, IH.
  destruct (decide (f x ∈ _)) as [Hf|Hf], (decide (g x ∈ _)) as [Hg|Hg];
    try reflexivity; exfalso.
  - apply Hg. apply elem_of_list_to_set, list_elem_of_fmap in Hf as (y & E & Hy).
    apply elem_of_list_to_set, list_elem_of_fmap. exists y. split; [|done].
    now apply Hfg.
  - apply Hf. apply elem_of_list_to_set, list_elem_of_fmap in Hg as (y & E & Hy).
    apply elem_of_list_to_set, list_elem_of_fmap. exists y. split; [|done].
    now apply Hfg.
Qed.

Lemma counted_spec (cutoff : Z) (sub : Submission) :
  counted cutoff sub = true ↔ Spec.accepted sub ∧ cutoff ≤ creationTimeSeconds sub.
Proof.
  unfold counted, Spec.accepted.
  rewrite andb_true_iff, bool_decide_eq_true, Z.leb_le. reflexivity.
Qed.

(** The loop adds to [solved] the keys of the submissions that count. *)
Lemma collect_keys (cutoff : Z) (subs : list Submission) (solved : gset JS.str) :
  collect cutoff subs solved =
  solved ∪ list_to_set
    (problemId ∘ problem <$>
       filter (fun sub => Spec.accepted sub ∧ cutoff ≤ creationTimeSeconds sub) subs).
Proof.
  revert solved. induction subs as [|sub subs IH]; intros solved; cbn [collect].
  - cbn. set_solver.
  - rewrite IH. pose proof (counted_spec cutoff sub) as Hc.
    destruct (counted cutoff sub).
    + rewrite filter_cons_True by now apply Hc.
      rewrite fmap_cons, list_to_set_cons. set_solver.
    + rewrite filter_cons_False; [reflexivity|].
      intros Hn. apply Hc in Hn. discriminate.
Qed.

Lemma collect_size (cutoff : Z) (subs : list Submission) :
  size (collect cutoff subs ∅) = size (Spec.solved_identities cutoff subs).
Proof.
  rewrite collect_keys, (left_id_L ∅ (∪)). unfold Spec.solved_identities.
  apply size_list_to_set_fmap. intros x y. cbn. split.
  - apply problemId_identity.
  - unfold Spec.identity, problemId. now intros [= -> ->].
Qed.

(** What a call of [getTodaySolvedCount] does: one request to the judge,
    then a count or a throw, never a [return] out of the handler. *)
Lemma getTodaySolvedCount_run (env : Env) (h : JS.str) (w : World) :
  let w' := called (UserStatus h) w in
  getTodaySolvedCount env h w =
  match user_status env (trace w') with
  | None => (Throw RequestError, w')
  | Some data =>
      if bool_decide (status data = JS.lit "OK")
      then (Normal (size (collect (startOfToday env w') (result data) ∅)), w')
      else (Throw ApiError, w')
  end.
Proof.
  unfold getTodaySolvedCount, bind, get_user_status. cbn zeta.
  destruct (user_status env _) as [data|]; [|reflexivity].
  destruct (bool_decide _); reflexivity.
Qed.

(** A cutoff at a whole second, as the host's midnight is, compares with
    the creation time in seconds as the midnight instant itself does. *)
Lemma cutoff_whole_second (ms t : Z) :
  ms mod 1000 = 0 → (ms / 1000 ≤ t ↔ ms ≤ 1000 * t).
Proof.
  intros Hm. pose proof (Z.div_mod ms 1000 ltac:(lia)) as E. lia.
Qed.

(** C1. When the judge answers with status OK, [getTodaySolvedCount] makes
    one request and returns the number of distinct problem identities
    (contest, index) among the submissions whose verdict is OK and whose
    creation time is at or after the start of today, the Unix time in
    seconds of the host's local midnight.  In particular it returns 1 for
    a list, in any order, of two accepted submissions of today to the same
    problem and one submission of yesterday. *)
Theorem getTodaySolvedCount_distinct_accepted_today :
  (∀ (env : Env) (h : JS.str) (w : World) (data : ApiData),
      user_status env (trace w ++ [UserStatus h]) = Some data →
      status data = JS.lit "OK" →
      getTodaySolvedCount env h w =
      (Normal (size (Spec.solved_identities
                       (local_midnight_ms env (trace w ++ [UserStatus h]) / 1000)
                       (result data))),
       called (UserStatus h) w))
  ∧
  (∀ (env : Env) (h : JS.str) (w : World) (data : ApiData) (a b y : Submission),
      let cutoff := local_midnight_ms env (trace w ++ [UserStatus h]) / 1000 in
      user_status env (trace w ++ [UserStatus h]) = Some data →
      status data = JS.lit "OK" →
      result data ≡ₚ [a; b; y] →
      Spec.accepted a → Spec.accepted b →
      Spec.identity (problem a) = Spec.identity (problem b) →
      cutoff ≤ creationTimeSeconds a → cutoff ≤ creationTimeSeconds b →
      creationTimeSeconds y < cutoff →
      getTodaySolvedCount env h w = (Normal 1%nat, called (UserStatus h) w)).
Proof.
  assert (G : ∀ env h w data,
             user_status env (trace w ++ [UserStatus h]) = Some data →
             status data = JS.lit "OK" →
             getTodaySolvedCount env h w =
             (Normal (size (Spec.solved_identities
                              (local_midnight_ms env (trace w ++ [UserStatus h]) / 1000)
                              (result data))),
              called (UserStatus h) w)).
  { intros env h w data Hj Hs. rewrite getTodaySolvedCount_run. cbn zeta.
    cbn [called trace]. rewrite Hj, bool_decide_eq_true_2 by exact Hs.
    rewrite collect_size. reflexivity. }
  split; [exact G|].
  intros env h w data a b y cutoff Hj Hs Hp Ha Hb Hab Hta Htb Hty.
  rewrite (G env h w data Hj Hs). do 2 f_equal. fold cutoff.
  unfold Spec.solved_identities. rewrite Hp.
  rewrite filter_cons_True by (split; assumption).
  rewrite filter_cons_True by (split; assumption).
  rewrite filter_cons_False by (intros [_ ?]; lia).
  rewrite filter_nil. cbn [fmap list_fmap compose].
  rewrite !list_to_set_cons, Hab, size_add.
  cbn [list_to_set foldr]. rewrite (right_id_L ∅ (∪)).
  rewrite decide_True by set_solver.
  apply size_singleton.
Qed.

Lemma getTodaySolvedCount_distinct_accepted_today_witness :
  getTodaySolvedCount Demo.env (JS.lit "h1") Demo.fresh
  = (Normal (size (Spec.solved_identities Demo.today Demo.three_today)),
     called (UserStatus (JS.lit "h1")) Demo.fresh)
  ∧ getTodaySolvedCount Demo.env (JS.lit "twice") Demo.fresh
    = (Normal 1%nat, called (UserStatus (JS.lit "twice")) Demo.fresh).
Proof.
  split.
  - apply (proj1 getTodaySolvedCount_distinct_accepted_today Demo.env
             (JS.lit "h1") Demo.fresh
             {| status := JS.lit "OK"; result := Demo.three_today |});
      reflexivity.
  - apply (proj2 getTodaySolvedCount_distinct_accepted_today Demo.env
             (JS.lit "twice") Demo.fresh
             {| status := JS.lit "OK"; result := Demo.twice_today_once_yesterday |}
             (Demo.sub "OK" (Demo.today + 7200) 1900 "A")
             (Demo.sub "OK" (Demo.today + 60) 1900 "A")
             (Demo.sub "OK" (Demo.today - 3600) 1899 "B"));
      [reflexivity | reflexivity | reflexivity | reflexivity | reflexivity
      | reflexivity | vm_compute; discriminate | vm_compute; discriminate
      | reflexivity].
Defined.

(** ** The calls, when nothing fails *)

Section Calm.

Context (env : Env) (Hcalm : calm env).

Lemma findOne_calm (gid : Z) (w : World) :
  findOne env gid w = (Normal (record_of gid w), called (FindOne gid) w).
Proof. unfold findOne. cbn zeta. now rewrite (proj1 Hcalm). Qed.

Lemma insertOne_calm (doc : Group) (w : World) :
  insertOne env doc w =
  (Normal tt, {| db := db w ++ [doc]; trace := trace w ++ [InsertOne doc] |}).
Proof. unfold insertOne. cbn zeta. now rewrite (proj1 Hcalm). Qed.

Lemma updateOne_calm (gid : Z) (us : list User) (w : World) :
  updateOne env gid us w =
  (Normal tt, {| db := set_users gid us (db w);
                 trace := trace w ++ [UpdateOne gid us] |}).
Proof. unfold updateOne. cbn zeta. now rewrite (proj1 Hcalm). Qed.

Lemma sendMessage_calm (chatId : Z) (t : JS.str) (md : bool) (w : World) :
  sendMessage env chatId t md w = (Normal tt, called (SendMessage chatId t md) w).
Proof. unfold sendMessage, send_settles. cbn zeta. now rewrite (proj2 Hcalm). Qed.

Lemma return_sendMessage_calm {A} (chatId : Z) (t : JS.str) (md : bool) (w : World) :
  @return_sendMessage A env chatId t md w =
  (Return Fulfilled, called (SendMessage chatId t md) w).
Proof. unfold return_sendMessage, send_settles. cbn zeta. now rewrite (proj2 Hcalm). Qed.

End Calm.

(** ** The collection *)

Lemma find_user_None (h : JS.str) (us : list User) :
  h ∉ handle <$> us → find_user h us = None.
Proof.
  unfold find_user. induction us as [|u us IH]; [reflexivity|].
  rewrite fmap_cons, not_elem_of_cons. intros [Hne Hnot]. cbn.
  rewrite bool_decide_eq_false_2 by congruence. now apply IH.
Qed.

Lemma find_user_Some (h : JS.str) (us : list User) :
  h ∈ handle <$> us → ∃ u, find_user h us = Some u.
Proof.
  unfold find_user. induction us as [|u us IH]; [now intros ?%elem_of_nil|].
  rewrite fmap_cons, elem_of_cons. intros Hin. cbn.
  destruct (bool_decide (handle u = h)) eqn:E; [eauto|].
  apply bool_decide_eq_false in E. destruct Hin as [->|Hin]; [done|]. now apply IH.
Qed.

Lemma find_app_None (gid : Z) (docs : list Group) (doc : Group) :
  List.find (matches gid) docs = None → matches gid doc = true →
  List.find (matches gid) (docs ++ [doc]) = Some doc.
Proof.
  intros Hn Hm. induction docs as [|g docs IH]; cbn in *; [now rewrite Hm|].
  destruct (matches gid g); [discriminate|]. now apply IH.
Qed.

(** After [updateOne] the chat's document carries the new [users] and is
    otherwise what it was. *)
Lemma find_set_users (gid : Z) (us : list User) (docs : list Group) :
  List.find (matches gid) (set_users gid us docs) =
  (fun g => {| groupId := groupId g; groupName := groupName g; users := us |})
    <$> List.find (matches gid) docs.
Proof.
  induction docs as [|g docs IH]; [reflexivity|]. cbn.
  destruct (matches gid g) eqn:E; cbn.
  - unfold matches in *. cbn. now rewrite E.
  - now rewrite E.
Qed.

(** ** The gate *)

(** C2. A message of a chat that is not private whose text (the empty text
    when the message has none) does not contain the mention token leaves the
    world as it was: the history of calls gains nothing, so no message is
    sent and the store is neither read nor written, and the collection is
    unchanged. *)
Theorem group_message_without_mention_is_ignored
    (env : Env) (msg : Message) (w : World) :
  chat_type (msg_chat msg) ≠ JS.lit "private" →
  JS.includes (text_of msg) (botUsername env) = false →
  handle_message env msg w = (Fulfilled, w).
Proof.
  intros Hgroup Hno. unfold handle_message, on_message, ignored.
  rewrite bool_decide_eq_false_2 by exact Hgroup. now rewrite Hno.
Qed.

Lemma group_message_without_mention_is_ignored_witness :
  handle_message Demo.env (Demo.group_msg "/add tourist")
    (Demo.with_docs [Demo.tracking Demo.group_chat ["h1"%string]])
  = (Fulfilled, Demo.with_docs [Demo.tracking Demo.group_chat ["h1"%string]]).
Proof.
  apply group_message_without_mention_is_ignored; [discriminate | reflexivity].
Defined.

(** ** Stripping the mention *)

Lemma startsWith_ci_length (s p : JS.str) :
  JS.startsWith_ci s p = true → (length p ≤ length s)%nat.
Proof.
  revert s. induction p as [|a p IH]; intros s H; cbn; [lia|].
  destruct s as [|b s]; [discriminate|]. cbn in H.
  apply andb_true_iff in H as [_ H]. apply IH in H. cbn. lia.
Qed.

Lemma includes_ci_length (s p : JS.str) :
  Spec.includes_ci s p = true → (length p ≤ length s)%nat.
Proof.
  induction s as [|c s IH]; cbn [Spec.includes_ci]; intros H.
  - rewrite orb_false_r in H. now apply startsWith_ci_length in H.
  - apply orb_true_iff in H as [H|H].
    + now apply startsWith_ci_length in H.
    + apply IH in H. cbn. lia.
Qed.

Lemma remove_ci_from_length (p : JS.str) (skip : nat) (s : JS.str) :
  (length (JS.remove_ci_from p skip s) ≤ length s - skip)%nat.
Proof.
  revert skip. induction s as [|c s IH]; intros skip; cbn [JS.remove_ci_from]; [cbn; lia|].
  destruct skip as [|k].
  - destruct p as [|a p'].
    + specialize (IH O). cbn [length]. lia.
    + destruct (JS.startsWith_ci (c :: s) (a :: p')).
      * specialize (IH (length p')). cbn [length]. lia.
      * specialize (IH O). cbn [length]. lia.
  - specialize (IH k). cbn [length]. lia.
Qed.

(** The RegExp matches the mention in any letter case: a text that contains
    it loses at least its length. *)
Lemma removeAll_ci_shrinks (s p : JS.str) :
  p ≠ [] → Spec.includes_ci s p = true →
  (length (JS.removeAll_ci s p) + length p ≤ length s)%nat.
Proof.
  intros Hp. unfold JS.removeAll_ci.
  destruct p as [|a p']; [done|]. clear Hp.
  induction s as [|c s IH]; intros H.
  - cbn in H. discriminate.
  - cbn [Spec.includes_ci] in H. cbn [JS.remove_ci_from].
    destruct (JS.startsWith_ci (c :: s) (a :: p')) eqn:E.
    + pose proof (remove_ci_from_length (a :: p') (length p') s).
      apply startsWith_ci_length in E. cbn [length] in *. lia.
    + cbn in H. apply IH in H. cbn [length] in *. lia.
Qed.

(** A match at the head of the text is dropped whole, and the scan goes on
    after it. *)
Lemma remove_ci_from_skip (p : JS.str) (skip : nat) (s : JS.str) :
  JS.remove_ci_from p skip s = JS.remove_ci_from p O (drop skip s).
Proof.
  revert skip. induction s as [|c s IH]; intros [|k]; try reflexivity.
  cbn [JS.remove_ci_from drop]. apply IH.
Qed.

Lemma removeAll_ci_head (s p : JS.str) :
  p ≠ [] → JS.startsWith_ci s p = true →
  JS.removeAll_ci s p = JS.removeAll_ci (drop (length p) s) p.
Proof.
  intros Hp H. unfold JS.removeAll_ci. destruct p as [|a p']; [done|].
  destruct s as [|c s]; [discriminate|]. cbn [JS.remove_ci_from].
  rewrite H. cbn [length drop]. apply remove_ci_from_skip.
Qed.

Lemma includes_nil (s : JS.str) : JS.includes s [] = true.
Proof. destruct s; reflexivity. Qed.

(** C10. The gate looks for the mention token in its exact letter case,
    while the RegExp that strips it ignores case.  A message of a chat that
    is not private whose text has the mention only in another letter case is
    ignored: the world, with its history of calls and its collection, is as
    it was; yet the stripping would have matched that mention (the stripped
    text is shorter by at least the token's length). *)
Theorem mention_in_other_case_is_ignored
    (env : Env) (msg : Message) (w : World) :
  chat_type (msg_chat msg) ≠ JS.lit "private" →
  JS.includes (text_of msg) (botUsername env) = false →
  Spec.includes_ci (text_of msg) (botUsername env) = true →
  handle_message env msg w = (Fulfilled, w)
  ∧ (length (JS.removeAll_ci (text_of msg) (botUsername env))
     + length (botUsername env) ≤ length (text_of msg))%nat.
Proof.
  intros Hgroup Hexact Hci. split.
  - unfold handle_message, on_message, ignored.
    rewrite bool_decide_eq_false_2 by exact Hgroup. now rewrite Hexact.
  - apply removeAll_ci_shrinks; [|exact Hci].
    intros E. rewrite E, includes_nil in Hexact. discriminate.
Qed.

Lemma mention_in_other_case_is_ignored_witness :
  handle_message Demo.env (Demo.group_msg "@cptrackbuddyBOT /add tourist") Demo.fresh
  = (Fulfilled, Demo.fresh)
  ∧ (length (JS.removeAll_ci (JS.lit "@cptrackbuddyBOT /add tourist") Demo.bot)
     + length Demo.bot ≤ length (JS.lit "@cptrackbuddyBOT /add tourist"))%nat.
Proof.
  apply (mention_in_other_case_is_ignored Demo.env
           (Demo.group_msg "@cptrackbuddyBOT /add tourist") Demo.fresh);
    [discriminate | reflexivity | reflexivity].
Defined.

(** ** The [/add] command *)

Lemma add_command_with_arg (env : Env) (msg : Message) (cleaned h : JS.str) :
  handle_arg cleaned = Some h → h ≠ [] →
  add_command env msg cleaned =
  (add_handle env msg h ;;; (fun w => (Return Fulfilled, w))).
Proof.
  intros Harg Hh. unfold add_command. rewrite Harg.
  destruct h; [done|]. reflexivity.
Qed.

Lemma add_command_without_arg (env : Env) (msg : Message) (cleaned : JS.str) :
  JS.truthy (handle_arg cleaned) = false →
  add_command env msg cleaned =
  return_sendMessage env (chat_id (msg_chat msg)) Reply.usage true.
Proof. intros H. unfold add_command. now rewrite H. Qed.

Section AddRuns.

Context (env : Env) (Hcalm : calm env) (msg : Message) (w : World) (h : JS.str).

Hypothesis Hgate : ignored env msg = false.
Hypothesis Hadd : JS.startsWith (cleanedText env msg) (JS.lit "/add") = true.
Hypothesis Harg : handle_arg (cleanedText env msg) = Some h.
Hypothesis Hh : h ≠ [].

Lemma add_run_new :
  let chatId := chat_id (msg_chat msg) in
  record_of chatId w = None →
  let doc := {| groupId := chatId; groupName := chat_title (msg_chat msg);
                users := [ {| handle := h |} ] |} in
  handle_message env msg w =
  (Fulfilled,
   {| db := db w ++ [doc];
      trace := trace w ++ [FindOne chatId; InsertOne doc;
                           SendMessage chatId (Reply.created h) false] |}).
Proof.
  intros chatId Hnone doc. unfold handle_message, on_message. rewrite Hgate, Hadd.
  rewrite (add_command_with_arg env msg _ h Harg Hh).
  unfold add_handle, try_catch, bind.
  rewrite (findOne_calm env Hcalm). fold chatId. rewrite Hnone.
  rewrite (insertOne_calm env Hcalm), (sendMessage_calm env Hcalm).
  unfold called. cbn [settle db trace]. rewrite <- !app_assoc. reflexivity.
Qed.

Lemma add_run_tracked (g : Group) :
  let chatId := chat_id (msg_chat msg) in
  record_of chatId w = Some g → h ∈ handle <$> users g →
  handle_message env msg w =
  (Fulfilled,
   {| db := db w;
      trace := trace w ++ [FindOne chatId;
                           SendMessage chatId (Reply.already_tracked h) false] |}).
Proof.
  intros chatId Hsome Hin. unfold handle_message, on_message. rewrite Hgate, Hadd.
  rewrite (add_command_with_arg env msg _ h Harg Hh).
  unfold add_handle, try_catch, bind.
  rewrite (findOne_calm env Hcalm). fold chatId. rewrite Hsome.
  destruct (find_user_Some h (users g) Hin) as [u ->].
  rewrite (return_sendMessage_calm env Hcalm).
  unfold called. cbn [settle db trace]. rewrite <- !app_assoc. reflexivity.
Qed.

Lemma add_run_append (g : Group) :
  let chatId := chat_id (msg_chat msg) in
  record_of chatId w = Some g → h ∉ handle <$> users g →
  let pushed := users g ++ [ {| handle := h |} ] in
  handle_message env msg w =
  (Fulfilled,
   {| db := set_users chatId pushed (db w);
      trace := trace w ++ [FindOne chatId; UpdateOne chatId pushed;
                           SendMessage chatId (Reply.added h) false] |}).
Proof.
  intros chatId Hsome Hout pushed. unfold handle_message, on_message. rewrite Hgate, Hadd.
  rewrite (add_command_with_arg env msg _ h Harg Hh).
  unfold add_handle, try_catch, bind.
  rewrite (findOne_calm env Hcalm). fold chatId. rewrite Hsome.
  rewrite (find_user_None h (users g) Hout).
  rewrite (updateOne_calm env Hcalm), (sendMessage_calm env Hcalm).
  unfold called. cbn [settle db trace]. rewrite <- !app_assoc. reflexivity.
Qed.

End AddRuns.


Lemma Demo_calm : calm Demo.env.
Proof. split; reflexivity. Qed.



Lemma matches_refl (gid : Z) (name : option JS.str) (us : list User) :
  matches gid {| groupId := gid; groupName := name; users := us |} = true.
Proof. unfold matches. cbn. apply Z.eqb_refl. Qed.





(** ** The report *)

(** A call of the judge client makes one request and either returns a count
    or throws. *)
Lemma getTodaySolvedCount_outcome (env : Env) (h : JS.str) (w : World) :
  (getTodaySolvedCount env h w).2 = called (UserStatus h) w
  ∧ ((∃ n, (getTodaySolvedCount env h w).1 = Normal n)
     ∨ (∃ e, (getTodaySolvedCount env h w).1 = Throw e)).
Proof.
  rewrite getTodaySolvedCount_run. cbn zeta.
  destruct (user_status env _) as [data|]; [|split; eauto].
  destruct (bool_decide _); split; eauto.
Qed.

Section ReportUser.

Context (env : Env) (Hcalm : calm env) (chatId : Z) (u : User) (w : World).



End ReportUser.




(** C7. On the report path, when the chat has no document or its document
    has an empty [users], and neither the store nor the chat platform fails,
    the handler reads the store once and sends one message, which says that
    no users are tracked and names the [/add <handle>] command; it makes no
    call to the judge. *)
Theorem report_without_tracked_users
    (env : Env) (msg : Message) (w : World) :
  let chatId := chat_id (msg_chat msg) in
  calm env →
  ignored env msg = false →
  JS.startsWith (cleanedText env msg) (JS.lit "/add") = false →
  (record_of chatId w = None
   ∨ ∃ g, record_of chatId w = Some g ∧ users g = []) →
  handle_message env msg w =
  (Fulfilled,
   {| db := db w;
      trace := trace w ++ [FindOne chatId;
                           SendMessage chatId Reply.no_users false] |})
  ∧ judge_calls (trace (handle_message env msg w).2) = judge_calls (trace w)
  ∧ JS.includes Reply.no_users (JS.lit "No users are being tracked") = true
  ∧ JS.includes Reply.no_users (JS.lit "Use /add <handle>") = true.
Proof.
  intros chatId Hcalm Hgate Hadd Hrec.
  assert (E : handle_message env msg w =
              (Fulfilled,
               {| db := db w;
                  trace := trace w ++ [FindOne chatId;
                                       SendMessage chatId Reply.no_users false] |})).
  { unfold handle_message, on_message. rewrite Hgate, Hadd.
    unfold report, try_catch, bind.
    rewrite (findOne_calm env Hcalm). fold chatId.
    destruct Hrec as [-> | (g & -> & ->)];
      rewrite (sendMessage_calm env Hcalm);
      unfold called; cbn [settle db trace]; now rewrite <- !app_assoc. }
  rewrite E. repeat split.
  cbn [snd trace]. unfold judge_calls. rewrite omap_app. cbn. apply app_nil_r.
Qed.

Lemma report_without_tracked_users_witness :
  handle_message Demo.env (Demo.private_msg "how are we doing?") Demo.fresh
  = (Fulfilled,
     {| db := [];
        trace := [FindOne 42; SendMessage 42 Reply.no_users false] |})
  ∧ handle_message Demo.env (Demo.group_msg "@CpTrackBuddybot")
      (Demo.with_docs [Demo.tracking Demo.group_chat []])
    = (Fulfilled,
       {| db := [Demo.tracking Demo.group_chat []];
          trace := [FindOne (-1001); SendMessage (-1001) Reply.no_users false] |}).
Proof.
  split.
  - apply (report_without_tracked_users Demo.env
             (Demo.private_msg "how are we doing?") Demo.fresh);
      [exact Demo_calm | reflexivity | reflexivity | left; reflexivity].
  - apply (report_without_tracked_users Demo.env
             (Demo.group_msg "@CpTrackBuddybot")
             (Demo.with_docs [Demo.tracking Demo.group_chat []]));
      [exact Demo_calm | reflexivity | reflexivity
      | right; exists (Demo.tracking Demo.group_chat []); split; reflexivity].
Defined.

(** ** Dispatch *)

Lemma startsWith_app (p rest : JS.str) : JS.startsWith (p ++ rest) p = true.
Proof.
  induction p as [|a p IH]; [now destruct rest|]. cbn. now rewrite N.eqb_refl, IH.
Qed.

Lemma judge_calls_snoc (tr : list Event) (e : Event) :
  (∀ h, e ≠ UserStatus h) → judge_calls (tr ++ [e]) = judge_calls tr.
Proof.
  intros He. unfold judge_calls. rewrite omap_app. cbn.
  destruct e; try apply app_nil_r. now destruct (He h).
Qed.

(** Whatever fails, the [/add] branch never calls the judge. *)
Lemma add_command_judge_calls (env : Env) (msg : Message) (cleaned : JS.str) (w : World) :
  judge_calls (trace (add_command env msg cleaned w).2) = judge_calls (trace w).
Proof.
  unfold add_command, add_handle, try_catch, bind, findOne, insertOne, updateOne,
    sendMessage, return_sendMessage, send_settles, called.
  cbn zeta.
  repeat (case_match; cbn [snd trace db]);
    simplify_eq; cbn [snd trace db];
    rewrite ?judge_calls_snoc by discriminate; reflexivity.
Qed.

(** Splitting at the space: the piece before the first space, then the
    pieces of what follows it. *)
Lemma split_space_app (a b : JS.str) :
  32%N ∉ a → JS.split 32 (a ++ 32%N :: b) = a :: JS.split 32 b.
Proof.
  induction a as [|c a IH]; intros Ha; [reflexivity|].
  apply not_elem_of_cons in Ha as [Hc Ha]. cbn.
  rewrite (proj2 (N.eqb_neq c 32)) by congruence. now rewrite (IH Ha).
Qed.

Lemma split_space_none (a : JS.str) : 32%N ∉ a → JS.split 32 a = [a].
Proof.
  induction a as [|c a IH]; intros Ha; [reflexivity|].
  apply not_elem_of_cons in Ha as [Hc Ha]. cbn.
  rewrite (proj2 (N.eqb_neq c 32)) by congruence. now rewrite (IH Ha).
Qed.

(** The handle argument of [cmd arg] and of [cmd arg more...]. *)
Lemma handle_arg_second_piece (cmd arg more : JS.str) :
  32%N ∉ cmd → 32%N ∉ arg →
  handle_arg (cmd ++ 32%N :: arg) = Some arg
  ∧ handle_arg (cmd ++ 32%N :: arg ++ 32%N :: more) = Some arg.
Proof.
  intros Hc Ha. unfold handle_arg. split.
  - now rewrite split_space_app, split_space_none.
  - now rewrite !split_space_app.
Qed.

(** C9. The dispatch tests a bare prefix.  A message that passes the gate
    and whose cleaned text is [/add] followed by anything, be it more
    letters of a longer first word, runs the [/add] branch on that text and
    makes no call to the judge, whatever fails; the branch takes as handle
    the piece after the first space.  So [/addict h], sent in a private chat
    without a document, creates the document with the user [h]. *)
Theorem add_prefix_takes_add_branch :
  (∀ (env : Env) (msg : Message) (w : World) (rest : JS.str),
      ignored env msg = false →
      cleanedText env msg = JS.lit "/add" ++ rest →
      on_message env msg w = add_command env msg (JS.lit "/add" ++ rest) w
      ∧ judge_calls (trace (handle_message env msg w).2) = judge_calls (trace w))
  ∧
  (∀ (env : Env) (msg : Message) (w : World) (word h : JS.str),
      ignored env msg = false →
      32%N ∉ word → 32%N ∉ h → h ≠ [] →
      cleanedText env msg = JS.lit "/add" ++ word ++ 32%N :: h →
      on_message env msg w =
      (add_handle env msg h ;;; (fun w' => (Return Fulfilled, w'))) w)
  ∧
  handle_message Demo.env (Demo.private_msg "/addict h") Demo.fresh =
  (Fulfilled,
   {| db := [Demo.tracking Demo.private_chat ["h"%string]];
      trace := [FindOne 42;
                InsertOne (Demo.tracking Demo.private_chat ["h"%string]);
                SendMessage 42 (Reply.created (JS.lit "h")) false] |}).
Proof.
  assert (G : ∀ env msg w rest,
             ignored env msg = false →
             cleanedText env msg = JS.lit "/add" ++ rest →
             on_message env msg w = add_command env msg (JS.lit "/add" ++ rest) w).
  { intros env msg w rest Hgate Hclean. unfold on_message.
    now rewrite Hgate, Hclean, startsWith_app. }
  split; [|split].
  - intros env msg w rest Hgate Hclean. split; [now apply G|].
    unfold handle_message. rewrite (G env msg w rest Hgate Hclean).
    pose proof (add_command_judge_calls env msg (JS.lit "/add" ++ rest) w) as J.
    destruct (add_command env msg (JS.lit "/add" ++ rest) w) as [c w'].
    exact J.
  - intros env msg w word h Hgate Hword Hh Hne Hclean.
    rewrite (G env msg w (word ++ 32%N :: h) Hgate Hclean).
    assert (Hcmd : 32%N ∉ JS.lit "/add" ++ word).
    { rewrite not_elem_of_app. split; [|exact Hword].
      intros H. vm_compute in H. set_solver. }
    rewrite (add_command_with_arg env msg _ h); [reflexivity| |exact Hne].
    rewrite app_assoc.
    exact (proj1 (handle_arg_second_piece (JS.lit "/add" ++ word) h [] Hcmd Hh)).
  - reflexivity.
Qed.

Lemma add_prefix_takes_add_branch_witness :
  on_message Demo.env (Demo.private_msg "/addict h") Demo.fresh
  = add_command Demo.env (Demo.private_msg "/addict h") (JS.lit "/addict h") Demo.fresh
  ∧ on_message Demo.env (Demo.group_msg "@CpTrackBuddybot /address h") Demo.fresh
    = (add_handle Demo.env (Demo.group_msg "@CpTrackBuddybot /address h")
         (JS.lit "h") ;;; (fun w' => (Return Fulfilled, w'))) Demo.fresh.
Proof.
  split.
  - apply (proj1 add_prefix_takes_add_branch Demo.env
             (Demo.private_msg "/addict h") Demo.fresh (JS.lit "ict h"));
      reflexivity.
  - apply (proj1 (proj2 add_prefix_takes_add_branch) Demo.env
             (Demo.group_msg "@CpTrackBuddybot /address h") Demo.fresh
             (JS.lit "ress") (JS.lit "h"));
      [reflexivity
      | apply (bool_decide_unpack _); vm_compute; exact I
      | apply (bool_decide_unpack _); vm_compute; exact I
      | discriminate
      | reflexivity].
Defined.

(** C8, as the code has it.  For a message that passes the gate and whose
    cleaned text starts with [/add], the handle argument is the second piece
    of the cleaned text cut at every space character (U+0020).  When that
    piece is there and not empty the handler runs the addition with it; when
    it is absent or empty the handler sends the usage error, and nothing
    else: the store is neither read nor written. *)
Theorem add_argument_is_second_space_piece
    (env : Env) (msg : Message) (w : World) :
  let chatId := chat_id (msg_chat msg) in
  let w' := called (SendMessage chatId Reply.usage true) w in
  ignored env msg = false →
  JS.startsWith (cleanedText env msg) (JS.lit "/add") = true →
  handle_arg (cleanedText env msg) = JS.split 32 (cleanedText env msg) !! 1%nat
  ∧ (∀ h, handle_arg (cleanedText env msg) = Some h → h ≠ [] →
          on_message env msg w =
          (add_handle env msg h ;;; (fun w'' => (Return Fulfilled, w''))) w)
  ∧ (handle_arg (cleanedText env msg) = None
     ∨ handle_arg (cleanedText env msg) = Some [] →
     handle_message env msg w = (send_settles env w', w')
     ∧ store_calls (trace w') = store_calls (trace w)
     ∧ db w' = db w).
Proof.
  intros chatId w' Hgate Hadd. split; [reflexivity|]. split.
  - intros h Hpiece Hh. unfold on_message. rewrite Hgate, Hadd.
    now rewrite (add_command_with_arg env msg _ h Hpiece Hh).
  - intros Hnone. split; [|split].
    + unfold handle_message, on_message. rewrite Hgate, Hadd.
      rewrite add_command_without_arg; [reflexivity|].
      now destruct Hnone as [-> | ->].
    + unfold w', called, store_calls. cbn [trace].
      rewrite List.filter_app. cbn. apply app_nil_r.
    + reflexivity.
Qed.

Lemma add_argument_is_second_space_piece_witness :
  (on_message Demo.env (Demo.private_msg "/add tourist") Demo.fresh =
   (add_handle Demo.env (Demo.private_msg "/add tourist") (JS.lit "tourist") ;;;
    (fun w'' => (Return Fulfilled, w''))) Demo.fresh)
  ∧ (handle_message Demo.env (Demo.private_msg "/add") Demo.fresh =
     (Fulfilled, {| db := []; trace := [SendMessage 42 Reply.usage true] |})).
Proof.
  split.
  - apply (proj1 (proj2 (add_argument_is_second_space_piece Demo.env
                           (Demo.private_msg "/add tourist") Demo.fresh
                           eq_refl eq_refl))
             (JS.lit "tourist")); [reflexivity | discriminate].
  - apply (proj1 (proj2 (proj2 (add_argument_is_second_space_piece Demo.env
                                  (Demo.private_msg "/add") Demo.fresh
                                  eq_refl eq_refl))
                    (or_introl eq_refl))).
Defined.

(** C8, as the specification words it, does not hold.  In the group chat
    the message
    [/add @CpTrackBuddybot tourist] passes the gate; stripping the mention
    leaves two spaces between [/add] and [tourist].  The second
    whitespace-separated token of the cleaned text is [tourist], but the
    piece the code takes is the empty one between the two spaces: the
    handler sends the usage error and does not run the addition. *)
Lemma second_whitespace_token_is_not_the_argument :
  cleanedText Demo.env (Demo.group_msg "/add @CpTrackBuddybot tourist")
  = JS.lit "/add  tourist"
  ∧ Spec.second_whitespace_token (JS.lit "/add  tourist") = Some (JS.lit "tourist")
  ∧ handle_arg (JS.lit "/add  tourist") = Some []
  ∧ handle_message Demo.env (Demo.group_msg "/add @CpTrackBuddybot tourist") Demo.fresh
    = (Fulfilled, {| db := []; trace := [SendMessage (-1001) Reply.usage true] |})
  ∧ on_message Demo.env (Demo.group_msg "/add @CpTrackBuddybot tourist") Demo.fresh
    ≠ (add_handle Demo.env (Demo.group_msg "/add @CpTrackBuddybot tourist")
         (JS.lit "tourist") ;;; (fun w => (Return Fulfilled, w))) Demo.fresh.
Proof.
  repeat split; try reflexivity. vm_compute. discriminate.
Qed.

(** ** Sample runs *)

(** The handle is compared as it is written: [Tourist] is not [tourist]. *)
Example add_other_letter_case :
  handle_message Demo.env (Demo.private_msg "/add Tourist")
    (Demo.with_docs [Demo.tracking Demo.private_chat ["tourist"%string]])
  = (Fulfilled,
     {| db := [Demo.tracking Demo.private_chat ["tourist"; "Tourist"]%string];
        trace := [FindOne 42;
                  UpdateOne 42 [Demo.user "tourist"; Demo.user "Tourist"];
                  SendMessage 42 (Reply.added (JS.lit "Tourist")) false] |}).
Proof. reflexivity. Qed.

(** A store failure on either path costs one generic failure message. *)
Example add_with_store_down :
  handle_message Demo.store_down (Demo.private_msg "/add tourist") Demo.fresh
  = (Fulfilled,
     {| db := [];
        trace := [FindOne 42; SendMessage 42 Reply.add_failed false] |}).
Proof. reflexivity. Qed.

Example report_with_store_down :
  handle_message Demo.store_down (Demo.private_msg "status") Demo.fresh
  = (Fulfilled,
     {| db := [];
        trace := [FindOne 42; SendMessage 42 Reply.report_failed false] |}).
Proof. reflexivity. Qed.

(** A rejected send that was awaited inside the [try] reaches the [catch];
    the send that is returned without [await] does not. *)
Example created_with_send_down :
  handle_message Demo.send_down (Demo.private_msg "/add h1") Demo.fresh
  = (Rejected SendError,
     {| db := [Demo.tracking Demo.private_chat ["h1"%string]];
        trace := [FindOne 42;
                  InsertOne (Demo.tracking Demo.private_chat ["h1"%string]);
                  SendMessage 42 (Reply.created (JS.lit "h1")) false;
                  SendMessage 42 Reply.add_failed false] |}).
Proof. reflexivity. Qed.

Example tracked_with_send_down :
  handle_message Demo.send_down (Demo.private_msg "/add h1")
    (Demo.with_docs [Demo.tracking Demo.private_chat ["h1"%string]])
  = (Rejected SendError,
     {| db := [Demo.tracking Demo.private_chat ["h1"%string]];
        trace := [FindOne 42;
                  SendMessage 42 (Reply.already_tracked (JS.lit "h1")) false] |}).
Proof. reflexivity. Qed.

(** The judge's two sample histories. *)
Example count_three_today :
  (getTodaySolvedCount Demo.env (JS.lit "h1") Demo.fresh).1 = Normal 3%nat.
Proof. vm_compute. reflexivity. Qed.

Example count_twice_today_once_yesterday :
  (getTodaySolvedCount Demo.env (JS.lit "twice") Demo.fresh).1 = Normal 1%nat.
Proof. vm_compute. reflexivity. Qed.

(** A tab after the command is no separator for the code. *)
Example add_with_tab :
  handle_arg (JS.lit "/add" ++ 9%N :: JS.lit "tourist") = None
  ∧ Spec.second_whitespace_token (JS.lit "/add" ++ 9%N :: JS.lit "tourist")
    = Some (JS.lit "tourist").
Proof. split; reflexivity. Qed.

(** * Further properties of the code *)

(** ** Runs under any failures *)

Section Keeps.

Context (R : World → World → Prop).
Hypothesis Rrefl : ∀ w, R w w.
Hypothesis Rtrans : ∀ a b c, R a b → R b c → R a c.

Lemma keeps_ret {A} (a : A) : keeps R (ret a).
Proof. intros w. apply Rrefl. Qed.

Lemma keeps_throw {A} (e : Err) : keeps R (@throw A e).
Proof. intros w. apply Rrefl. Qed.

Lemma keeps_return {A} (p : Settled) : keeps R (fun w => (@Return A p, w)).
Proof. intros w. apply Rrefl. Qed.

Lemma keeps_bind {A B} (m : M A) (k : A → M B) :
  keeps R m → (∀ a, keeps R (k a)) → keeps R (bind m k).
Proof.
  intros Hm Hk w. unfold bind. specialize (Hm w).
  destruct (m w) as [[a|p|e] w']; cbn [snd] in *; try assumption.
  eapply Rtrans; [exact Hm | apply Hk].
Qed.

Lemma keeps_try_catch {A} (body : M A) (handler : Err → M A) :
  keeps R body → (∀ e, keeps R (handler e)) → keeps R (try_catch body handler).
Proof.
  intros Hb Hh w. unfold try_catch. specialize (Hb w).
  destruct (body w) as [[a|p|e] w']; cbn [snd] in *; try assumption.
  eapply Rtrans; [exact Hb | apply Hh].
Qed.

End Keeps.

Lemma went_on_refl (P : Event → bool) (w : World) : went_on P w w.
Proof. exists []. now rewrite app_nil_r. Qed.

Lemma went_on_trans (P : Event → bool) (a b c : World) :
  went_on P a b → went_on P b c → went_on P a c.
Proof.
  intros (e1 & E1 & H1) (e2 & E2 & H2). exists (e1 ++ e2).
  rewrite E2, E1, <- app_assoc. split; [reflexivity|].
  rewrite forallb_app, H1, H2. reflexivity.
Qed.

Lemma went_on_called (P : Event → bool) (e : Event) (w : World) (docs : list Group) :
  P e = true → went_on P w {| db := docs; trace := trace w ++ [e] |}.
Proof. intros He. exists [e]. cbn. now rewrite He. Qed.

Lemma went_on_weaken (P Q : Event → bool) (w w' : World) :
  (∀ e, P e = true → Q e = true) → went_on P w w' → went_on Q w w'.
Proof.
  intros HPQ (evs & E & H). exists evs. split; [exact E|].
  rewrite forallb_forall in *. intros e He. apply HPQ, H, He.
Qed.

Lemma unchanged_refl (P : Event → bool) (w : World) : unchanged P w w.
Proof. split; [apply went_on_refl | reflexivity]. Qed.

Lemma unchanged_trans (P : Event → bool) (a b c : World) :
  unchanged P a b → unchanged P b c → unchanged P a c.
Proof.
  intros [H1 E1] [H2 E2]. split; [now apply (went_on_trans P a b c) | congruence].
Qed.

Section Calls.

Context (env : Env) (R : World → World → Prop) (P : Event → bool).
Hypothesis Rrefl : ∀ w, R w w.
Hypothesis Rtrans : ∀ a b c, R a b → R b c → R a c.
Hypothesis Rcall : ∀ e w, P e = true → R w (called e w).
Hypothesis Rinsert : ∀ doc w,
  P (InsertOne doc) = true →
  R w {| db := db w ++ [doc]; trace := trace w ++ [InsertOne doc] |}.
Hypothesis Rupdate : ∀ gid us w,
  P (UpdateOne gid us) = true →
  R w {| db := set_users gid us (db w); trace := trace w ++ [UpdateOne gid us] |}.

Lemma findOne_keeps (gid : Z) :
  P (FindOne gid) = true → keeps R (findOne env gid).
Proof.
  intros He w. unfold findOne. cbn zeta.
  destruct (store_throws env _); now apply Rcall.
Qed.

Lemma insertOne_keeps (doc : Group) :
  P (InsertOne doc) = true → keeps R (insertOne env doc).
Proof.
  intros He w. unfold insertOne. cbn zeta.
  destruct (store_throws env _); [now apply Rcall | now apply Rinsert].
Qed.

Lemma updateOne_keeps (gid : Z) (us : list User) :
  P (UpdateOne gid us) = true → keeps R (updateOne env gid us).
Proof.
  intros He w. unfold updateOne. cbn zeta.
  destruct (store_throws env _); [now apply Rcall | now apply Rupdate].
Qed.

Lemma sendMessage_keeps (chatId : Z) (t : JS.str) (md : bool) :
  P (SendMessage chatId t md) = true → keeps R (sendMessage env chatId t md).
Proof.
  intros He w. unfold sendMessage. cbn zeta.
  destruct (send_settles env _); now apply Rcall.
Qed.

Lemma return_sendMessage_keeps {A} (chatId : Z) (t : JS.str) (md : bool) :
  P (SendMessage chatId t md) = true →
  keeps R (@return_sendMessage A env chatId t md).
Proof. intros He w. unfold return_sendMessage. cbn zeta. now apply Rcall. Qed.

Lemma getTodaySolvedCount_keeps (h : JS.str) :
  P (UserStatus h) = true → keeps R (getTodaySolvedCount env h).
Proof.
  intros He w. rewrite (proj1 (getTodaySolvedCount_outcome env h w)).
  now apply Rcall.
Qed.

(** The branches of the handler make no other calls than these. *)
Lemma add_command_keeps (msg : Message) (cleaned : JS.str) :
  let chatId := chat_id (msg_chat msg) in
  (∀ t md, P (SendMessage chatId t md) = true) →
  P (FindOne chatId) = true →
  (∀ doc, groupId doc = chatId → P (InsertOne doc) = true) →
  (∀ us, P (UpdateOne chatId us) = true) →
  keeps R (add_command env msg cleaned).
Proof.
  intros chatId Hsend Hfind Hins Hupd.
  unfold add_command. destruct (JS.truthy _).
  - apply keeps_bind; [assumption | | intros; now apply keeps_return].
    unfold add_handle. apply keeps_try_catch; [assumption | |].
    + apply keeps_bind; [assumption | now apply findOne_keeps |].
      intros [g|].
      * destruct (find_user _ _).
        -- now apply return_sendMessage_keeps.
        -- apply keeps_bind; [assumption | now apply updateOne_keeps |].
           intros _. now apply sendMessage_keeps.
      * apply keeps_bind; [assumption | apply insertOne_keeps, Hins; reflexivity |].
        intros _. now apply sendMessage_keeps.
    + intros _. now apply sendMessage_keeps.
  - now apply return_sendMessage_keeps.
Qed.

Lemma report_users_keeps (chatId : Z) (us : list User) :
  (∀ t md, P (SendMessage chatId t md) = true) →
  (∀ h, P (UserStatus h) = true) →
  keeps R (report_users env chatId us).
Proof.
  intros Hsend Hjudge.
  induction us as [|u us IH]; cbn [report_users]; [now apply keeps_ret|].
  apply keeps_bind; [assumption | | intros _; exact IH].
  unfold report_user. apply keeps_try_catch; [assumption | |].
  - apply keeps_bind; [assumption | now apply getTodaySolvedCount_keeps |].
    intros n. now apply sendMessage_keeps.
  - intros _. now apply sendMessage_keeps.
Qed.

Lemma report_keeps (msg : Message) :
  let chatId := chat_id (msg_chat msg) in
  (∀ t md, P (SendMessage chatId t md) = true) →
  P (FindOne chatId) = true →
  (∀ h, P (UserStatus h) = true) →
  keeps R (report env msg).
Proof.
  intros chatId Hsend Hfind Hjudge.
  unfold report. apply keeps_try_catch; [assumption | |].
  - apply keeps_bind; [assumption | now apply findOne_keeps |].
    intros [g|]; [|now apply sendMessage_keeps].
    destruct (users g) eqn:E; [now apply sendMessage_keeps|].
    rewrite <- E. now apply report_users_keeps.
  - intros _. now apply sendMessage_keeps.
Qed.

End Calls.

Lemma handle_message_world (env : Env) (msg : Message) (w : World) :
  (handle_message env msg w).2 = (on_message env msg w).2.
Proof. unfold handle_message. now destruct (on_message env msg w). Qed.

Lemma handle_message_settled (env : Env) (msg : Message) (w : World) :
  (handle_message env msg w).1 = settle (on_message env msg w).1.
Proof. unfold handle_message. now destruct (on_message env msg w). Qed.

(** X7.  Whatever fails, every call the handler makes for a message
    concerns the chat the message came from: the sends go to that chat, the
    store calls name its identifier, an inserted document is for it; the
    only other calls are requests to the judge. *)
Theorem handler_calls_concern_the_chat (env : Env) (msg : Message) (w : World) :
  went_on (concerns (chat_id (msg_chat msg))) w (handle_message env msg w).2.
Proof.
  rewrite handle_message_world. unfold on_message.
  set (P := concerns (chat_id (msg_chat msg))).
  assert (Hs : ∀ t md, P (SendMessage (chat_id (msg_chat msg)) t md) = true)
    by (intros; apply Z.eqb_refl).
  assert (Hf : P (FindOne (chat_id (msg_chat msg))) = true) by apply Z.eqb_refl.
  destruct (ignored env msg); [apply went_on_refl|].
  destruct (JS.startsWith _ _).
  - apply (add_command_keeps env (went_on P) P); try assumption.
    + apply went_on_refl.
    + apply went_on_trans.
    + intros e w0 He. now apply went_on_called.
    + intros doc w0 He. now apply went_on_called.
    + intros gid us w0 He. now apply went_on_called.
    + intros doc E. unfold P. cbn. rewrite E. apply Z.eqb_refl.
    + intros us. apply Z.eqb_refl.
  - apply (report_keeps env (went_on P) P); try assumption.
    + apply went_on_refl.
    + apply went_on_trans.
    + intros e w0 He. now apply went_on_called.
    + reflexivity.
Qed.

Lemma report_path_unchanged (env : Env) (msg : Message) (w : World) :
  JS.startsWith (cleanedText env msg) (JS.lit "/add") = false →
  unchanged (fun e => negb (is_write e)) w (handle_message env msg w).2.
Proof.
  intros Hadd. rewrite handle_message_world. unfold on_message. rewrite Hadd.
  set (P := fun e => negb (is_write e)).
  destruct (ignored env msg); [apply unchanged_refl|].
  apply (report_keeps env (unchanged P) P); try reflexivity.
  - apply unchanged_refl.
  - apply unchanged_trans.
  - intros e w0 He. split; [now apply went_on_called | reflexivity].
Qed.

(** X17.  A message whose cleaned text does not start with [/add] never
    writes to the store, whatever fails: the collection is as it was and
    the history gains no insert and no update. *)
Theorem report_path_never_writes (env : Env) (msg : Message) (w : World) :
  JS.startsWith (cleanedText env msg) (JS.lit "/add") = false →
  db (handle_message env msg w).2 = db w
  ∧ went_on (fun e => negb (is_write e)) w (handle_message env msg w).2.
Proof.
  intros Hadd. destruct (report_path_unchanged env msg w Hadd) as [H E].
  split; assumption.
Qed.

Lemma report_path_never_writes_witness :
  db (handle_message Demo.env (Demo.private_msg "who solved what?")
        (Demo.with_docs [Demo.tracking Demo.private_chat ["h1"%string]])).2
  = [Demo.tracking Demo.private_chat ["h1"%string]].
Proof.
  exact (proj1 (report_path_never_writes Demo.env
                  (Demo.private_msg "who solved what?")
                  (Demo.with_docs [Demo.tracking Demo.private_chat ["h1"%string]])
                  eq_refl)).
Defined.

(** ** What a run does to the collection, under any failures *)

Lemma sendMessage_db (env : Env) (chatId : Z) (t : JS.str) (md : bool) (w : World) :
  db (sendMessage env chatId t md w).2 = db w.
Proof. unfold sendMessage. cbn zeta. now destruct (send_settles env _). Qed.

Lemma find_user_None_inv (h : JS.str) (us : list User) :
  find_user h us = None → h ∉ handle <$> us.
Proof.
  intros Hn Hin. destruct (find_user_Some h us Hin) as [u Hu]. congruence.
Qed.

Lemma findOne_cases (env : Env) (gid : Z) (w : World) :
  findOne env gid w = (Throw StoreError, called (FindOne gid) w)
  ∨ findOne env gid w = (Normal (record_of gid w), called (FindOne gid) w).
Proof. unfold findOne. cbn zeta. destruct (store_throws env _); auto. Qed.

Lemma insertOne_cases (env : Env) (doc : Group) (w : World) :
  insertOne env doc w = (Throw StoreError, called (InsertOne doc) w)
  ∨ insertOne env doc w =
    (Normal tt, {| db := db w ++ [doc]; trace := trace w ++ [InsertOne doc] |}).
Proof. unfold insertOne. cbn zeta. destruct (store_throws env _); auto. Qed.

Lemma updateOne_cases (env : Env) (gid : Z) (us : list User) (w : World) :
  updateOne env gid us w = (Throw StoreError, called (UpdateOne gid us) w)
  ∨ updateOne env gid us w =
    (Normal tt, {| db := set_users gid us (db w);
                   trace := trace w ++ [UpdateOne gid us] |}).
Proof. unfold updateOne. cbn zeta. destruct (store_throws env _); auto. Qed.

Ltac send_step :=
  match goal with
  | |- context [sendMessage ?e ?c ?t ?m ?w0] =>
      let H := fresh "Hsend" in
      (pose proof (sendMessage_db e c t m w0) as H;
       destruct (sendMessage e c t m w0) as [[[]|?|?] ?];
       cbn [snd] in H; cbv beta iota)
  end.

(** The collection after the [try] of the [/add] command: as it was, or
    with the chat's first document, or with the handle pushed on the list
    of the chat's document. *)
Lemma add_handle_db (env : Env) (msg : Message) (h : JS.str) (w : World) :
  let chatId := chat_id (msg_chat msg) in
  let w' := (add_handle env msg h w).2 in
  db w' = db w
  ∨ (record_of chatId w = None
     ∧ db w' = db w ++ [ {| groupId := chatId;
                            groupName := chat_title (msg_chat msg);
                            users := [ {| handle := h |} ] |} ])
  ∨ (∃ g, record_of chatId w = Some g ∧ (h ∉ handle <$> users g)
          ∧ db w' = set_users chatId (users g ++ [ {| handle := h |} ]) (db w)).
Proof.
  intros chatId w'. subst w'. unfold add_handle, try_catch, bind. fold chatId.
  destruct (findOne_cases env chatId w) as [E|E]; rewrite E; cbv beta iota.
  { left. send_step; cbn [snd]; exact Hsend. }
  destruct (record_of chatId w) as [g|] eqn:Hrec.
  - destruct (find_user h (users g)) eqn:Hfind.
    + left. reflexivity.
    + apply find_user_None_inv in Hfind.
      destruct (updateOne_cases env chatId (users g ++ [ {| handle := h |} ])
                  (called (FindOne chatId) w)) as [U|U]; rewrite U; cbv beta iota.
      * left. send_step; cbn [snd]; exact Hsend.
      * right. right. exists g. split; [reflexivity|]. split; [exact Hfind|].
        send_step; cbn [snd]; try exact Hsend.
        send_step; cbn [snd]; rewrite Hsend0, Hsend; reflexivity.
  - destruct (insertOne_cases env
                {| groupId := chatId; groupName := chat_title (msg_chat msg);
                   users := [ {| handle := h |} ] |}
                (called (FindOne chatId) w)) as [I|I]; rewrite I; cbv beta iota.
    + left. send_step; cbn [snd]; exact Hsend.
    + right. left. split; [reflexivity|].
      send_step; cbn [snd]; try exact Hsend.
      send_step; cbn [snd]; rewrite Hsend0, Hsend; reflexivity.
Qed.

Lemma split_no_sep (sep : N) (s : JS.str) :
  Forall (fun piece => sep ∉ piece) (JS.split sep s).
Proof.
  induction s as [|c s IH]; cbn [JS.split].
  - repeat constructor. apply not_elem_of_nil.
  - destruct (N.eqb_spec c sep) as [->|Hne].
    + constructor; [apply not_elem_of_nil | exact IH].
    + destruct (JS.split sep s) as [|piece rest].
      * repeat constructor. rewrite not_elem_of_cons. split; [congruence | apply not_elem_of_nil].
      * inversion IH as [|? ? Hp Hr]; subst. constructor; [|exact Hr].
        rewrite not_elem_of_cons. split; [congruence | exact Hp].
Qed.

Lemma handle_arg_no_space (cleaned h : JS.str) :
  handle_arg cleaned = Some h → 32%N ∉ h.
Proof.
  unfold handle_arg. intros Hl.
  pose proof (split_no_sep 32 cleaned) as Hall.
  rewrite Forall_lookup in Hall. exact (Hall 1%nat h Hl).
Qed.

(** The same for the whole handler, with the handle the message gives. *)
Lemma handle_message_db (env : Env) (msg : Message) (w : World) :
  let chatId := chat_id (msg_chat msg) in
  let w' := (handle_message env msg w).2 in
  db w' = db w
  ∨ ∃ h, h ≠ [] ∧ (32%N ∉ h) ∧
      ((record_of chatId w = None
        ∧ db w' = db w ++ [ {| groupId := chatId;
                               groupName := chat_title (msg_chat msg);
                               users := [ {| handle := h |} ] |} ])
       ∨ (∃ g, record_of chatId w = Some g ∧ (h ∉ handle <$> users g)
               ∧ db w' = set_users chatId (users g ++ [ {| handle := h |} ]) (db w))).
Proof.
  intros chatId w'. subst w'.
  destruct (JS.startsWith (cleanedText env msg) (JS.lit "/add")) eqn:Hadd.
  2:{ left. now apply report_path_unchanged. }
  rewrite handle_message_world. unfold on_message. rewrite Hadd.
  destruct (ignored env msg); [now left|].
  unfold add_command.
  destruct (handle_arg (cleanedText env msg)) as [[|c h]|] eqn:Harg;
    cbn [JS.truthy default from_option id]; try (now left).
  pose proof (add_handle_db env msg (c :: h) w) as H. cbn zeta in H.
  unfold bind. destruct (add_handle env msg (c :: h) w) as [[[]|p|e] w1];
    cbn [snd] in *;
    (destruct H as [H|H]; [now left|]; right; exists (c :: h);
     split; [discriminate|]; split; [now apply (handle_arg_no_space _ _ Harg)|];
     exact H).
Qed.

(** ** Invariants of the collection *)

Lemma record_of_In (gid : Z) (w : World) (g : Group) :
  record_of gid w = Some g → g ∈ db w ∧ groupId g = gid.
Proof.
  unfold record_of. intros H. apply find_some in H as [Hin Hm].
  split; [now apply list_elem_of_In | now apply Z.eqb_eq].
Qed.

Lemma record_of_None (gid : Z) (w : World) :
  record_of gid w = None → gid ∉ (groupId <$> db w).
Proof.
  unfold record_of. intros H Hin. apply list_elem_of_fmap in Hin as (g & -> & Hg).
  apply list_elem_of_In in Hg.
  pose proof (find_none _ _ H g Hg) as Hm. unfold matches in Hm.
  now rewrite Z.eqb_refl in Hm.
Qed.

Lemma set_users_Forall (P : Group → Prop) (gid : Z) (us : list User) (docs : list Group) :
  Forall P docs →
  (∀ g, g ∈ docs → P {| groupId := groupId g; groupName := groupName g; users := us |}) →
  Forall P (set_users gid us docs).
Proof.
  induction docs as [|g docs IH]; intros Hall Hnew; [constructor|].
  inversion Hall as [|? ? Hg Hrest]; subst. cbn [set_users].
  destruct (matches gid g).
  - constructor; [apply Hnew; left | exact Hrest].
  - constructor; [exact Hg|]. apply IH; [exact Hrest|].
    intros g' Hg'. apply Hnew. now right.
Qed.

Lemma set_users_groupIds (gid : Z) (us : list User) (docs : list Group) :
  groupId <$> set_users gid us docs = groupId <$> docs.
Proof.
  induction docs as [|g docs IH]; [reflexivity|]. cbn [set_users].
  destruct (matches gid g); cbn; [reflexivity | now rewrite IH].
Qed.

Lemma grown_refl (g : Group) : grown g g.
Proof. unfold grown. repeat split; reflexivity. Qed.

Lemma grown_all_refl (docs : list Group) : Forall2 grown docs docs.
Proof. induction docs; constructor; [apply grown_refl | assumption]. Qed.

Lemma set_users_grown (gid : Z) (g : Group) (more : list User) (docs : list Group) :
  List.find (matches gid) docs = Some g →
  Forall2 grown docs (set_users gid (users g ++ more) docs).
Proof.
  induction docs as [|g0 docs IH]; [discriminate|]. cbn [List.find set_users].
  destruct (matches gid g0).
  - intros [= ->]. constructor; [|apply grown_all_refl].
    repeat split. cbn. now apply prefix_app_r.
  - intros H. constructor; [apply grown_refl | now apply IH].
Qed.

(** X8.  Whatever fails, a run of the handler keeps the handles of every
    document distinct: if no document lists a handle twice before, none
    does after. *)
Theorem handler_keeps_handles_unique (env : Env) (msg : Message) (w : World) :
  unique_handles (db w) → unique_handles (db (handle_message env msg w).2).
Proof.
  intros Hu. unfold unique_handles in *.
  destruct (handle_message_db env msg w)
    as [-> | (h & _ & _ & [[_ ->] | (g & Hrec & Hout & ->)])].
  - exact Hu.
  - apply Forall_app. split; [exact Hu|]. apply Forall_singleton.
    cbn. apply NoDup_singleton.
  - apply set_users_Forall; [exact Hu|]. intros g' _. cbn [users].
    rewrite fmap_app. cbn. apply NoDup_app. split; [|split].
    + apply record_of_In in Hrec as [Hin _].
      rewrite Forall_forall in Hu. now apply Hu.
    + intros x Hx Hx'. apply list_elem_of_singleton in Hx'. now subst.
    + apply NoDup_singleton.
Qed.

Lemma handler_keeps_handles_unique_witness :
  unique_handles
    (db (handle_message Demo.env (Demo.private_msg "/add h2")
           (Demo.with_docs [Demo.tracking Demo.private_chat ["h1"%string]])).2).
Proof.
  apply (handler_keeps_handles_unique Demo.env (Demo.private_msg "/add h2")
           (Demo.with_docs [Demo.tracking Demo.private_chat ["h1"%string]])).
  apply Forall_singleton. cbn. apply NoDup_singleton.
Defined.

(** X9.  Whatever fails, a run of the handler keeps one document per chat:
    if no two documents are for the same chat before, none are after. *)
Theorem handler_keeps_one_record_per_chat (env : Env) (msg : Message) (w : World) :
  one_record_per_chat (db w) → one_record_per_chat (db (handle_message env msg w).2).
Proof.
  intros Hu. unfold one_record_per_chat in *.
  destruct (handle_message_db env msg w)
    as [-> | (h & _ & _ & [[Hnone ->] | (g & Hrec & Hout & ->)])].
  - exact Hu.
  - rewrite fmap_app. cbn. apply NoDup_app. split; [exact Hu|]. split.
    + intros x Hx Hx'. apply list_elem_of_singleton in Hx'. subst.
      now apply record_of_None in Hnone.
    + apply NoDup_singleton.
  - now rewrite set_users_groupIds.
Qed.

Lemma handler_keeps_one_record_per_chat_witness :
  one_record_per_chat
    (db (handle_message Demo.env (Demo.private_msg "/add h2")
           (Demo.with_docs [Demo.tracking Demo.group_chat ["h1"%string]])).2).
Proof.
  apply (handler_keeps_one_record_per_chat Demo.env (Demo.private_msg "/add h2")
           (Demo.with_docs [Demo.tracking Demo.group_chat ["h1"%string]])).
  apply NoDup_singleton.
Defined.

(** X10.  Whatever fails, the collection only grows: after a run every
    document is where it was, with its chat and its name, and with its list
    of users as a prefix of the new list; new documents come at the end. *)
Theorem handler_only_appends (env : Env) (msg : Message) (w : World) :
  grown_db (db w) (db (handle_message env msg w).2).
Proof.
  unfold grown_db.
  destruct (handle_message_db env msg w)
    as [-> | (h & _ & _ & [[Hnone ->] | (g & Hrec & Hout & ->)])].
  - exists (db w), []. split; [now rewrite app_nil_r | apply grown_all_refl].
  - eexists (db w), _. split; [reflexivity | apply grown_all_refl].
  - eexists _, []. split; [now rewrite app_nil_r|].
    now apply set_users_grown.
Qed.

(** X16.  Whatever fails, every handle the handler stores is a non-empty text without a
    space. *)
Theorem handler_stores_words (env : Env) (msg : Message) (w : World) :
  handles_are_words (db w) → handles_are_words (db (handle_message env msg w).2).
Proof.
  intros Hu. unfold handles_are_words in *.
  destruct (handle_message_db env msg w)
    as [-> | (h & Hne & Hsp & [[_ ->] | (g & Hrec & Hout & ->)])].
  - exact Hu.
  - apply Forall_app. split; [exact Hu|]. apply Forall_singleton.
    cbn. apply Forall_singleton. cbn. split; assumption.
  - apply set_users_Forall; [exact Hu|]. intros g' _. cbn [users].
    apply Forall_app. split.
    + apply record_of_In in Hrec as [Hin _].
      rewrite Forall_forall in Hu. now apply Hu.
    + apply Forall_singleton. cbn. split; assumption.
Qed.

Lemma handler_stores_words_witness :
  handles_are_words
    (db (handle_message Demo.env (Demo.private_msg "/add h2")
           (Demo.with_docs [Demo.tracking Demo.private_chat ["h1"%string]])).2).
Proof.
  apply (handler_stores_words Demo.env (Demo.private_msg "/add h2")
           (Demo.with_docs [Demo.tracking Demo.private_chat ["h1"%string]])).
  apply Forall_singleton. cbn. apply Forall_singleton. cbn.
  split; [discriminate | apply (bool_decide_unpack _); vm_compute; exact I].
Defined.

(** ** A reply to every message that passes the gate *)

Lemma replied_went_on (a b c : World) :
  replied a b → went_on any_call b c → replied a c.
Proof.
  intros (e1 & E1 & H1) (e2 & E2 & _). exists (e1 ++ e2).
  rewrite E2, E1, <- app_assoc. split; [reflexivity|].
  rewrite existsb_app, H1. reflexivity.
Qed.

Lemma went_on_replied (a b c : World) :
  went_on any_call a b → replied b c → replied a c.
Proof.
  intros (e1 & E1 & _) (e2 & E2 & H2). exists (e1 ++ e2).
  rewrite E2, E1, <- app_assoc. split; [reflexivity|].
  rewrite existsb_app, H2. apply orb_true_r.
Qed.

Lemma replied_is_went_on (a b : World) : replied a b → went_on any_call a b.
Proof.
  intros (evs & E & _). exists evs. split; [exact E|].
  apply forallb_forall. reflexivity.
Qed.

Lemma called_went_on (e : Event) (w : World) : went_on any_call w (called e w).
Proof. now apply went_on_called. Qed.

Lemma sendMessage_replied (env : Env) (chatId : Z) (t : JS.str) (md : bool) :
  keeps replied (sendMessage env chatId t md).
Proof.
  intros w. unfold sendMessage. cbn zeta.
  destruct (send_settles env _); exists [SendMessage chatId t md]; now split.
Qed.

Lemma return_sendMessage_replied {A} (env : Env) (chatId : Z) (t : JS.str) (md : bool) :
  keeps replied (@return_sendMessage A env chatId t md).
Proof. intros w. exists [SendMessage chatId t md]. now split. Qed.

Lemma replied_or_throws {A} (m : M A) : keeps replied m → replies_or_throws m.
Proof.
  intros H w. specialize (H w). destruct (m w) as [[a|p|e] w']; cbn [snd] in H;
    try exact H. now apply replied_is_went_on.
Qed.

(** After a store call, which completes normally or throws. *)
Lemma bind_replies_or_throws {A B} (m : M A) (k : A → M B) :
  (∀ w, went_on any_call w (m w).2 ∧ ∀ p, (m w).1 ≠ Return p) →
  (∀ a, replies_or_throws (k a)) →
  replies_or_throws (bind m k).
Proof.
  intros Hm Hk w. unfold bind. destruct (Hm w) as [Hw Hr].
  destruct (m w) as [[a|p|e] w1]; cbn [fst snd] in *.
  - specialize (Hk a w1). destruct (k a w1) as [[b|p|e] w2].
    + now apply (went_on_replied w w1 w2).
    + now apply (went_on_replied w w1 w2).
    + now apply (went_on_trans any_call w w1 w2).
  - now destruct (Hr p).
  - exact Hw.
Qed.

Lemma try_catch_replied {A} (body : M A) (handler : Err → M A) :
  replies_or_throws body → (∀ e, keeps replied (handler e)) →
  keeps replied (try_catch body handler).
Proof.
  intros Hb Hh w. unfold try_catch. specialize (Hb w).
  destruct (body w) as [[a|p|e] w1]; cbn [snd]; try exact Hb.
  now apply (went_on_replied w w1 _ Hb), Hh.
Qed.

Lemma bind_replied {A B} (m : M A) (k : A → M B) :
  keeps replied m → (∀ a, keeps (went_on any_call) (k a)) → keeps replied (bind m k).
Proof.
  intros Hm Hk w. unfold bind. specialize (Hm w).
  destruct (m w) as [[a|p|e] w1]; cbn [snd] in *; try exact Hm.
  now apply (replied_went_on w w1 _ Hm), Hk.
Qed.

Lemma findOne_plain (env : Env) (gid : Z) (w : World) :
  went_on any_call w (findOne env gid w).2 ∧ ∀ p, (findOne env gid w).1 ≠ Return p.
Proof.
  destruct (findOne_cases env gid w) as [E|E]; rewrite E;
    (split; [apply called_went_on | discriminate]).
Qed.

Lemma insertOne_plain (env : Env) (doc : Group) (w : World) :
  went_on any_call w (insertOne env doc w).2 ∧ ∀ p, (insertOne env doc w).1 ≠ Return p.
Proof.
  destruct (insertOne_cases env doc w) as [E|E]; rewrite E;
    (split; [now apply went_on_called | discriminate]).
Qed.

Lemma updateOne_plain (env : Env) (gid : Z) (us : list User) (w : World) :
  went_on any_call w (updateOne env gid us w).2
  ∧ ∀ p, (updateOne env gid us w).1 ≠ Return p.
Proof.
  destruct (updateOne_cases env gid us w) as [E|E]; rewrite E;
    (split; [now apply went_on_called | discriminate]).
Qed.

Lemma getTodaySolvedCount_plain (env : Env) (h : JS.str) (w : World) :
  went_on any_call w (getTodaySolvedCount env h w).2
  ∧ ∀ p, (getTodaySolvedCount env h w).1 ≠ Return p.
Proof.
  destruct (getTodaySolvedCount_outcome env h w) as [E [[n Hn]|[e He]]];
    rewrite E; (split; [apply called_went_on | congruence]).
Qed.

Lemma report_user_replied (env : Env) (chatId : Z) (u : User) :
  keeps replied (report_user env chatId u).
Proof.
  unfold report_user. apply try_catch_replied.
  - apply bind_replies_or_throws; [apply getTodaySolvedCount_plain|].
    intros n. apply replied_or_throws, sendMessage_replied.
  - intros _. apply sendMessage_replied.
Qed.

Lemma report_replied (env : Env) (msg : Message) : keeps replied (report env msg).
Proof.
  unfold report. apply try_catch_replied; [|intros _; apply sendMessage_replied].
  apply bind_replies_or_throws; [apply findOne_plain|].
  intros [g|]; [|apply replied_or_throws, sendMessage_replied].
  destruct (users g) as [|u us]; [apply replied_or_throws, sendMessage_replied|].
  apply replied_or_throws. cbn [report_users].
  apply bind_replied; [apply report_user_replied|].
  intros _. apply (report_users_keeps env (went_on any_call) any_call);
    try reflexivity; [apply went_on_refl | apply went_on_trans | ].
  intros e w _. apply called_went_on.
Qed.

Lemma add_command_replied (env : Env) (msg : Message) (cleaned : JS.str) :
  keeps replied (add_command env msg cleaned).
Proof.
  unfold add_command. destruct (JS.truthy _); [|apply return_sendMessage_replied].
  apply bind_replied; [|intros _ w; apply went_on_refl].
  unfold add_handle. apply try_catch_replied; [|intros _; apply sendMessage_replied].
  apply bind_replies_or_throws; [apply findOne_plain|].
  intros [g|].
  - destruct (find_user _ _).
    + apply replied_or_throws, return_sendMessage_replied.
    + apply bind_replies_or_throws; [apply updateOne_plain|].
      intros _. apply replied_or_throws, sendMessage_replied.
  - apply bind_replies_or_throws; [apply insertOne_plain|].
    intros _. apply replied_or_throws, sendMessage_replied.
Qed.

(** X6.  A message that passes the gate is answered: whatever the store,
    the judge and the chat platform do, the handler calls [sendMessage] at
    least once. *)
Theorem handler_always_replies (env : Env) (msg : Message) (w : World) :
  ignored env msg = false → replied w (handle_message env msg w).2.
Proof.
  intros Hgate. rewrite handle_message_world. unfold on_message. rewrite Hgate.
  destruct (JS.startsWith _ _); [apply add_command_replied | apply report_replied].
Qed.

Lemma handler_always_replies_witness :
  replied Demo.fresh
    (handle_message Demo.store_down (Demo.group_msg "@CpTrackBuddybot") Demo.fresh).2.
Proof.
  exact (handler_always_replies Demo.store_down (Demo.group_msg "@CpTrackBuddybot")
           Demo.fresh eq_refl).
Defined.

(** ** No rejection while the chat platform accepts the sends *)

Section SendsAccepted.

Context (env : Env).
Hypothesis Haccepted : ∀ tr, send_rejects env tr = false.

Lemma sendMessage_settles_well (chatId : Z) (t : JS.str) (md : bool) (w : World) :
  ∃ w', sendMessage env chatId t md w = (Normal tt, w').
Proof. unfold sendMessage, send_settles. cbn zeta. rewrite Haccepted. eauto. Qed.

Lemma return_sendMessage_settles_well {A} (chatId : Z) (t : JS.str) (md : bool) (w : World) :
  ∃ w', @return_sendMessage A env chatId t md w = (Return Fulfilled, w').
Proof. unfold return_sendMessage, send_settles. cbn zeta. rewrite Haccepted. eauto. Qed.

Lemma report_user_normal (chatId : Z) (u : User) (w : World) :
  ∃ w', report_user env chatId u w = (Normal tt, w').
Proof.
  unfold report_user, try_catch, bind.
  destruct (getTodaySolvedCount_outcome env (handle u) w) as [_ [[n Hn]|[e He]]];
    destruct (getTodaySolvedCount env (handle u) w) as [c w1]; cbn [fst] in *; subst c.
  - destruct (sendMessage_settles_well chatId (Reply.solved (handle u) n) false w1)
      as [w2 ->]. eauto.
  - apply sendMessage_settles_well.
Qed.

Lemma report_users_normal (chatId : Z) (us : list User) (w : World) :
  ∃ w', report_users env chatId us w = (Normal tt, w').
Proof.
  revert w. induction us as [|u us IH]; intros w; cbn [report_users].
  - unfold ret. eauto.
  - unfold bind. destruct (report_user_normal chatId u w) as [w1 ->]. apply IH.
Qed.

Lemma report_settles_well (msg : Message) (w : World) :
  ∃ w', report env msg w = (Normal tt, w').
Proof.
  unfold report, try_catch, bind.
  destruct (findOne_cases env (chat_id (msg_chat msg)) w) as [E|E]; rewrite E.
  - apply sendMessage_settles_well.
  - destruct (record_of _ w) as [g|].
    + destruct (users g) as [|u us] eqn:Hus.
      * destruct (sendMessage_settles_well (chat_id (msg_chat msg)) Reply.no_users
                    false (called (FindOne (chat_id (msg_chat msg))) w)) as [w2 ->].
        eauto.
      * destruct (report_users_normal (chat_id (msg_chat msg)) (u :: us)
                    (called (FindOne (chat_id (msg_chat msg))) w)) as [w2 ->].
        eauto.
    + destruct (sendMessage_settles_well (chat_id (msg_chat msg)) Reply.no_users
                  false (called (FindOne (chat_id (msg_chat msg))) w)) as [w2 ->].
      eauto.
Qed.

Lemma add_handle_settles_well (msg : Message) (h : JS.str) (w : World) :
  settles_well (add_handle env msg h w).1.
Proof.
  unfold add_handle, try_catch, bind.
  destruct (findOne_cases env (chat_id (msg_chat msg)) w) as [E|E]; rewrite E;
    cbv beta iota.
  { destruct (sendMessage_settles_well (chat_id (msg_chat msg)) Reply.add_failed
                false (called (FindOne (chat_id (msg_chat msg))) w)) as [w2 ->].
    exact I. }
  destruct (record_of _ w) as [g|].
  - destruct (find_user h (users g)).
    + destruct (@return_sendMessage_settles_well unit (chat_id (msg_chat msg))
                  (Reply.already_tracked h) false
                  (called (FindOne (chat_id (msg_chat msg))) w)) as [w2 ->].
      exact I.
    + match goal with
      | |- context [updateOne ?e ?c ?us ?w0] =>
          destruct (updateOne_cases e c us w0) as [U|U]; rewrite U; cbv beta iota
      end.
      * match goal with
        | |- context [sendMessage env ?c ?t ?m ?w0] =>
            destruct (sendMessage_settles_well c t m w0) as [w2 ->]
        end. exact I.
      * match goal with
        | |- context [sendMessage env ?c ?t ?m ?w0] =>
            destruct (sendMessage_settles_well c t m w0) as [w2 ->]
        end. exact I.
  - match goal with
    | |- context [insertOne ?e ?doc ?w0] =>
        destruct (insertOne_cases e doc w0) as [U|U]; rewrite U; cbv beta iota
    end.
    + match goal with
      | |- context [sendMessage env ?c ?t ?m ?w0] =>
          destruct (sendMessage_settles_well c t m w0) as [w2 ->]
      end. exact I.
    + match goal with
      | |- context [sendMessage env ?c ?t ?m ?w0] =>
          destruct (sendMessage_settles_well c t m w0) as [w2 ->]
      end. exact I.
Qed.

End SendsAccepted.

(** X14.  While the chat platform accepts the sends, the promise of the
    handler is fulfilled; no failure of the store or of the judge makes it
    reject. *)
Theorem handler_fulfils_while_sends_accepted (env : Env) (msg : Message) (w : World) :
  (∀ tr, send_rejects env tr = false) →
  (handle_message env msg w).1 = Fulfilled.
Proof.
  intros Hacc. rewrite handle_message_settled. unfold on_message.
  destruct (ignored env msg); [reflexivity|].
  destruct (JS.startsWith _ _).
  - unfold add_command. destruct (JS.truthy _).
    + unfold bind. pose proof (add_handle_settles_well env Hacc msg
                                 (default [] (handle_arg (cleanedText env msg))) w) as H.
      destruct (add_handle env msg _ w) as [[[]|[|e]|e] w1]; cbn in *;
        try reflexivity; contradiction.
    + destruct (@return_sendMessage_settles_well env Hacc unit (chat_id (msg_chat msg))
                  Reply.usage true w) as [w1 ->]. reflexivity.
  - destruct (report_settles_well env Hacc msg w) as [w1 ->]. reflexivity.
Qed.

Lemma handler_fulfils_while_sends_accepted_witness :
  (handle_message Demo.store_down (Demo.private_msg "/add tourist") Demo.fresh).1
  = Fulfilled.
Proof.
  exact (handler_fulfils_while_sends_accepted Demo.store_down
           (Demo.private_msg "/add tourist") Demo.fresh (fun _ => eq_refl)).
Defined.

(** ** The report, one line per user *)





(** ** Failures of the store *)

(** X12.  On the [/add] path, while the chat platform accepts the sends, a
    store call that throws (the read, the insert or the update) leaves the
    collection as it was and costs one message, the generic failure; the
    promise is fulfilled. *)
Theorem add_with_failing_store
    (env : Env) (msg : Message) (w : World) (h : JS.str) :
  let chatId := chat_id (msg_chat msg) in
  let doc := {| groupId := chatId; groupName := chat_title (msg_chat msg);
                users := [ {| handle := h |} ] |} in
  (∀ tr, send_rejects env tr = false) →
  ignored env msg = false →
  JS.startsWith (cleanedText env msg) (JS.lit "/add") = true →
  handle_arg (cleanedText env msg) = Some h → h ≠ [] →
  (store_throws env (trace w ++ [FindOne chatId]) = true →
   handle_message env msg w =
   (Fulfilled,
    {| db := db w;
       trace := trace w ++ [FindOne chatId;
                            SendMessage chatId Reply.add_failed false] |}))
  ∧ (store_throws env (trace w ++ [FindOne chatId]) = false →
     record_of chatId w = None →
     store_throws env (trace w ++ [FindOne chatId; InsertOne doc]) = true →
     handle_message env msg w =
     (Fulfilled,
      {| db := db w;
         trace := trace w ++ [FindOne chatId; InsertOne doc;
                              SendMessage chatId Reply.add_failed false] |}))
  ∧ (∀ g, store_throws env (trace w ++ [FindOne chatId]) = false →
     record_of chatId w = Some g →
     h ∉ handle <$> users g →
     let pushed := users g ++ [ {| handle := h |} ] in
     store_throws env (trace w ++ [FindOne chatId; UpdateOne chatId pushed]) = true →
     handle_message env msg w =
     (Fulfilled,
      {| db := db w;
         trace := trace w ++ [FindOne chatId; UpdateOne chatId pushed;
                              SendMessage chatId Reply.add_failed false] |})).
Proof.
  intros chatId doc Hacc Hgate Hadd Harg Hh.
  assert (Hsend : ∀ t w0, sendMessage env chatId t false w0 =
                          (Normal tt, called (SendMessage chatId t false) w0)).
  { intros t w0. unfold sendMessage, send_settles. cbn zeta. now rewrite Hacc. }
  unfold handle_message, on_message. rewrite Hgate, Hadd.
  rewrite (add_command_with_arg env msg _ h Harg Hh).
  unfold add_handle, try_catch, bind, findOne, insertOne, updateOne.
  cbn zeta. fold chatId. unfold called. cbn [db trace].
  split; [|split].
  - intros ->. rewrite Hsend. unfold called. cbn [fst snd settle db trace].
    now rewrite <- ?app_assoc.
  - intros -> Hnone Hthrow. fold (record_of chatId w). rewrite Hnone.
    fold doc. cbn [db trace]. rewrite <- app_assoc. cbn [app]. rewrite Hthrow, Hsend.
    unfold called. cbn [fst snd settle db trace]. now rewrite <- ?app_assoc.
  - intros g -> Hsome Hout Hthrow. fold (record_of chatId w). rewrite Hsome.
    rewrite (find_user_None h (users g) Hout). cbn [db trace].
    rewrite <- app_assoc. cbn [app]. rewrite Hthrow, Hsend.
    unfold called. cbn [fst snd settle db trace]. now rewrite <- ?app_assoc.
Qed.

Lemma add_with_failing_store_witness :
  handle_message Demo.store_down (Demo.private_msg "/add tourist") Demo.fresh
  = (Fulfilled,
     {| db := []; trace := [FindOne 42; SendMessage 42 Reply.add_failed false] |})
  ∧ handle_message Demo.read_only (Demo.private_msg "/add tourist") Demo.fresh
    = (Fulfilled,
       {| db := [];
          trace := [FindOne 42;
                    InsertOne (Demo.tracking Demo.private_chat ["tourist"%string]);
                    SendMessage 42 Reply.add_failed false] |})
  ∧ handle_message Demo.read_only (Demo.private_msg "/add tourist")
      (Demo.with_docs [Demo.tracking Demo.private_chat ["h1"%string]])
    = (Fulfilled,
       {| db := [Demo.tracking Demo.private_chat ["h1"%string]];
          trace := [FindOne 42;
                    UpdateOne 42 [Demo.user "h1"; Demo.user "tourist"];
                    SendMessage 42 Reply.add_failed false] |}).
Proof.
  split; [|split].
  - exact (proj1 (add_with_failing_store Demo.store_down
                    (Demo.private_msg "/add tourist") Demo.fresh (JS.lit "tourist")
                    (fun _ => eq_refl) eq_refl eq_refl eq_refl ltac:(discriminate))
             eq_refl).
  - exact (proj1 (proj2 (add_with_failing_store Demo.read_only
                           (Demo.private_msg "/add tourist") Demo.fresh
                           (JS.lit "tourist")
                           (fun _ => eq_refl) eq_refl eq_refl eq_refl
                           ltac:(discriminate)))
             eq_refl eq_refl eq_refl).
  - apply (proj2 (proj2 (add_with_failing_store Demo.read_only
                           (Demo.private_msg "/add tourist")
                           (Demo.with_docs [Demo.tracking Demo.private_chat ["h1"%string]])
                           (JS.lit "tourist")
                           (fun _ => eq_refl) eq_refl eq_refl eq_refl
                           ltac:(discriminate)))
             (Demo.tracking Demo.private_chat ["h1"%string]));
      [reflexivity | reflexivity
      | apply (bool_decide_unpack _); vm_compute; exact I | reflexivity].
Defined.

(** X13.  On the report path, while the chat platform accepts the sends, a
    read of the store that throws costs one message, the generic failure of
    the report; the judge is not called and the promise is fulfilled. *)
Theorem report_with_failing_store (env : Env) (msg : Message) (w : World) :
  let chatId := chat_id (msg_chat msg) in
  (∀ tr, send_rejects env tr = false) →
  ignored env msg = false →
  JS.startsWith (cleanedText env msg) (JS.lit "/add") = false →
  store_throws env (trace w ++ [FindOne chatId]) = true →
  handle_message env msg w =
  (Fulfilled,
   {| db := db w;
      trace := trace w ++ [FindOne chatId;
                           SendMessage chatId Reply.report_failed false] |}).
Proof.
  intros chatId Hacc Hgate Hadd Hthrow.
  unfold handle_message, on_message. rewrite Hgate, Hadd.
  unfold report, try_catch, bind, findOne. cbn zeta. fold chatId.
  unfold called. cbn [db trace]. rewrite Hthrow.
  unfold sendMessage, send_settles. cbn zeta. rewrite Hacc.
  unfold called. cbn [settle db trace]. now rewrite <- ?app_assoc.
Qed.

Lemma report_with_failing_store_witness :
  handle_message Demo.store_down (Demo.private_msg "status")
    (Demo.with_docs [Demo.tracking Demo.private_chat ["h1"%string]])
  = (Fulfilled,
     {| db := [Demo.tracking Demo.private_chat ["h1"%string]];
        trace := [FindOne 42; SendMessage 42 Reply.report_failed false] |}).
Proof.
  exact (report_with_failing_store Demo.store_down (Demo.private_msg "status")
           (Demo.with_docs [Demo.tracking Demo.private_chat ["h1"%string]])
           (fun _ => eq_refl) eq_refl eq_refl eq_refl).
Defined.

(** ** Adding, then adding again *)

(** X15.  When neither the store nor the chat platform fails, after an
    [/add] message with the handle [h] the chat's document lists [h]; and
    the same message once more changes nothing in the collection and is
    answered by the warning that [h] is already tracked. *)
Theorem add_twice_is_add_once
    (env : Env) (msg : Message) (w : World) (h : JS.str) :
  let chatId := chat_id (msg_chat msg) in
  let w1 := (handle_message env msg w).2 in
  calm env →
  ignored env msg = false →
  JS.startsWith (cleanedText env msg) (JS.lit "/add") = true →
  handle_arg (cleanedText env msg) = Some h → h ≠ [] →
  (∃ g, record_of chatId w1 = Some g ∧ (h ∈ handle <$> users g))
  ∧ handle_message env msg w1 =
    (Fulfilled,
     {| db := db w1;
        trace := trace w1 ++ [FindOne chatId;
                              SendMessage chatId (Reply.already_tracked h) false] |}).
Proof.
  intros chatId w1 Hcalm Hgate Hadd Harg Hh.
  assert (Hlisted : ∃ g, record_of chatId w1 = Some g ∧ (h ∈ handle <$> users g)).
  { subst w1. destruct (record_of chatId w) as [g|] eqn:Hrec.
    - destruct (decide (h ∈ handle <$> users g)) as [Hin|Hout].
      + rewrite (add_run_tracked env Hcalm msg w h Hgate Hadd Harg Hh g Hrec Hin).
        exists g. split; [exact Hrec | exact Hin].
      + rewrite (add_run_append env Hcalm msg w h Hgate Hadd Harg Hh g Hrec Hout).
        eexists. split.
        * unfold record_of in *. cbn [snd db]. rewrite find_set_users.
          fold chatId. rewrite Hrec. reflexivity.
        * cbn [users]. rewrite fmap_app. apply elem_of_app. right. now left.
    - rewrite (add_run_new env Hcalm msg w h Hgate Hadd Harg Hh Hrec).
      eexists. split.
      + unfold record_of in *. cbn [snd db].
        apply find_app_None; [exact Hrec | apply matches_refl].
      + now left. }
  split; [exact Hlisted|].
  destruct Hlisted as (g & Hrec & Hin).
  exact (add_run_tracked env Hcalm msg w1 h Hgate Hadd Harg Hh g Hrec Hin).
Qed.

Lemma add_twice_is_add_once_witness :
  handle_message Demo.env (Demo.private_msg "/add h1")
    (handle_message Demo.env (Demo.private_msg "/add h1") Demo.fresh).2
  = (Fulfilled,
     {| db := [Demo.tracking Demo.private_chat ["h1"%string]];
        trace := [FindOne 42;
                  InsertOne (Demo.tracking Demo.private_chat ["h1"%string]);
                  SendMessage 42 (Reply.created (JS.lit "h1")) false;
                  FindOne 42;
                  SendMessage 42 (Reply.already_tracked (JS.lit "h1")) false] |}).
Proof.
  exact (proj2 (add_twice_is_add_once Demo.env (Demo.private_msg "/add h1")
                  Demo.fresh (JS.lit "h1") Demo_calm eq_refl eq_refl eq_refl
                  ltac:(discriminate))).
Defined.

(** ** More on the judge client *)


(** The keys in [solved] after the loop, started from the empty set. *)
Lemma elem_of_collect (cutoff : Z) (subs : list Submission) (key : JS.str) :
  key ∈ collect cutoff subs ∅
  ↔ ∃ sub, sub ∈ subs ∧ counted cutoff sub = true ∧ problemId (problem sub) = key.
Proof.
  rewrite collect_keys, (left_id_L ∅ (∪)), elem_of_list_to_set, list_elem_of_fmap.
  split.
  - intros (sub & -> & Hin). apply list_elem_of_filter in Hin as [Hc Hin].
    exists sub. split; [exact Hin|]. split; [now apply counted_spec | reflexivity].
  - intros (sub & Hin & Hc & <-). exists sub. split; [reflexivity|].
    apply list_elem_of_filter. split; [now apply counted_spec | exact Hin].
Qed.

Lemma collect_size_le (cutoff : Z) (subs : list Submission) (solved : gset JS.str) :
  (size (collect cutoff subs solved)
   ≤ size solved + length (List.filter (counted cutoff) subs))%nat.
Proof.
  revert solved. induction subs as [|sub subs IH]; intros solved; cbn [collect List.filter].
  - lia.
  - destruct (counted cutoff sub).
    + specialize (IH ({[problemId (problem sub)]} ∪ solved)).
      rewrite size_add in IH. cbn [length].
      destruct (decide (problemId (problem sub) ∈ solved)); lia.
    + apply IH.
Qed.

(** X2.  The count is at most the number of submissions that count
    (verdict OK, created at or after the cutoff), hence at most the number
    of submissions; it is zero exactly when no submission counts. *)
Theorem solved_count_bounds (cutoff : Z) (subs : list Submission) :
  (size (collect cutoff subs ∅) ≤ length (List.filter (counted cutoff) subs)
   ≤ length subs)%nat
  ∧ (size (collect cutoff subs ∅) = 0%nat
     ↔ ∀ sub, sub ∈ subs → counted cutoff sub = false).
Proof.
  split; [split|].
  - pose proof (collect_size_le cutoff subs ∅) as H. now rewrite size_empty in H.
  - apply List.filter_length_le.
  - rewrite size_empty_iff. split.
    + intros He sub Hin. destruct (counted cutoff sub) eqn:Hc; [|reflexivity].
      exfalso.
      assert (Hk : problemId (problem sub) ∈ collect cutoff subs ∅)
        by (apply elem_of_collect; eauto).
      rewrite He in Hk. now apply not_elem_of_empty in Hk.
    + intros Hnone. apply elem_of_equiv_empty. intros key Hkey.
      apply elem_of_collect in Hkey as (sub & Hin & Hc & _).
      rewrite (Hnone sub Hin) in Hc. discriminate.
Qed.

(** X3.  The count depends on which submissions are in the list, not on
    their order or on repetitions, and more submissions never give a
    smaller count. *)
Theorem solved_count_monotone (cutoff : Z) (subs subs' : list Submission) :
  ((∀ sub, sub ∈ subs → sub ∈ subs') →
   (size (collect cutoff subs ∅) ≤ size (collect cutoff subs' ∅))%nat)
  ∧ ((∀ sub, sub ∈ subs ↔ sub ∈ subs') →
     size (collect cutoff subs ∅) = size (collect cutoff subs' ∅)).
Proof.
  assert (G : ∀ l l' : list Submission, (∀ sub, sub ∈ l → sub ∈ l') →
              collect cutoff l ∅ ⊆ collect cutoff l' ∅).
  { intros l l' Hsub key Hkey. apply elem_of_collect in Hkey as (sub & Hin & Hc & E).
    apply elem_of_collect. exists sub. auto. }
  split.
  - intros Hsub. apply subseteq_size, G, Hsub.
  - intros Hsame. apply Nat.le_antisymm; apply subseteq_size, G;
      intros sub; apply Hsame.
Qed.

Lemma solved_count_monotone_witness :
  size (collect Demo.today (Demo.three_today ++ Demo.three_today) ∅)
  = size (collect Demo.today Demo.three_today ∅).
Proof.
  apply (proj2 (solved_count_monotone Demo.today
                  (Demo.three_today ++ Demo.three_today) Demo.three_today)).
  intros sub. rewrite elem_of_app. tauto.
Defined.

(** X4.  A later cutoff never gives a larger count. *)
Theorem solved_count_later_cutoff (earlier later : Z) (subs : list Submission) :
  earlier ≤ later →
  (size (collect later subs ∅) ≤ size (collect earlier subs ∅))%nat.
Proof.
  intros Hle. apply subseteq_size. intros key Hkey.
  apply elem_of_collect in Hkey as (sub & Hin & Hc & E).
  apply elem_of_collect. exists sub. split; [exact Hin|]. split; [|exact E].
  apply counted_spec in Hc as [Ha Ht]. apply counted_spec. split; [exact Ha | lia].
Qed.

Lemma solved_count_later_cutoff_witness :
  (size (collect (Demo.today + 3600) Demo.three_today ∅)
   ≤ size (collect Demo.today Demo.three_today ∅))%nat.
Proof.
  apply (solved_count_later_cutoff Demo.today (Demo.today + 3600) Demo.three_today).
  vm_compute. discriminate.
Defined.

(** X5.  The text key under which a problem enters the set [solved] names
    one problem only: two problems have the same key exactly when they have
    the same contest (a whole number, or none) and the same index, whatever
    hyphens the index holds. *)
Theorem problemId_names_one_problem (p q : Problem) :
  problemId p = problemId q ↔ contestId p = contestId q ∧ index p = index q.
Proof.
  split.
  - intros E. apply problemId_identity in E. unfold Spec.identity in E.
    now injection E.
  - unfold problemId. now intros [-> ->].
Qed.

(** ** The text of the message *)

Lemma startsWith_ci_app (p rest : JS.str) : JS.startsWith_ci (p ++ rest) p = true.
Proof.
  induction p as [|a p IH]; [now destruct rest|]. cbn. now rewrite N.eqb_refl, IH.
Qed.

Lemma includes_app (p rest : JS.str) : JS.includes (p ++ rest) p = true.
Proof.
  destruct (p ++ rest) as [|c s] eqn:E; cbn [JS.includes]; rewrite <- E;
    now rewrite startsWith_app.
Qed.

Lemma startsWith_ci_nil (s : JS.str) : JS.startsWith_ci s [] = true.
Proof. now destruct s. Qed.

Lemma removeAll_ci_none (s p : JS.str) :
  Spec.includes_ci s p = false → JS.removeAll_ci s p = s.
Proof.
  unfold JS.removeAll_ci. induction s as [|c s IH]; [reflexivity|].
  cbn [Spec.includes_ci JS.remove_ci_from]. intros H.
  apply orb_false_iff in H as [Hhead Htail].
  destruct p as [|a p']; [now rewrite startsWith_ci_nil in Hhead|].
  rewrite Hhead. f_equal. now apply IH.
Qed.

(** A text changes under the stripping exactly when it holds the mention
    in some letter case. *)
Lemma removeAll_ci_changes (s p : JS.str) :
  p ≠ [] → (JS.removeAll_ci s p = s ↔ Spec.includes_ci s p = false).
Proof.
  intros Hp. split; [|apply removeAll_ci_none].
  intros E. destruct (Spec.includes_ci s p) eqn:H; [|reflexivity].
  pose proof (removeAll_ci_shrinks s p Hp H) as L. rewrite E in L.
  destruct p; [done|]. cbn [length] in L. lia.
Qed.

Lemma trimStart_app_ws (ws s : JS.str) :
  forallb JS.isWhiteSpace ws = true → JS.trimStart (ws ++ s) = JS.trimStart s.
Proof.
  induction ws as [|c ws IH]; [reflexivity|]. cbn [forallb app JS.trimStart].
  intros H. apply andb_true_iff in H as [-> H]. now apply IH.
Qed.

Lemma trimStart_ws (ws : JS.str) :
  forallb JS.isWhiteSpace ws = true → JS.trimStart ws = [].
Proof.
  intros H. rewrite <- (app_nil_r ws). now rewrite trimStart_app_ws.
Qed.

Lemma trimStart_nil_ws (s : JS.str) :
  JS.trimStart s = [] → forallb JS.isWhiteSpace s = true.
Proof.
  induction s as [|c s IH]; [reflexivity|]. cbn [JS.trimStart forallb].
  destruct (JS.isWhiteSpace c); [exact IH | discriminate].
Qed.

Lemma trimStart_app (s t : JS.str) :
  JS.trimStart s ≠ [] → JS.trimStart (s ++ t) = JS.trimStart s ++ t.
Proof.
  induction s as [|c s IH]; [done|]. cbn [app JS.trimStart].
  destruct (JS.isWhiteSpace c); [exact IH | reflexivity].
Qed.

Lemma forallb_rev {A} (f : A → bool) (l : list A) :
  forallb f (rev l) = forallb f l.
Proof.
  induction l as [|a l IH]; [reflexivity|]. cbn.
  rewrite forallb_app, IH. cbn. rewrite andb_true_r. apply andb_comm.
Qed.

Lemma trimEnd_app_ws (s ws : JS.str) :
  forallb JS.isWhiteSpace ws = true → JS.trimEnd (s ++ ws) = JS.trimEnd s.
Proof.
  intros H. unfold JS.trimEnd. rewrite rev_app_distr, trimStart_app_ws; [reflexivity|].
  now rewrite forallb_rev.
Qed.

(** White space around a text does not reach the cleaned text. *)
Lemma trim_padded (ws1 s ws2 : JS.str) :
  forallb JS.isWhiteSpace ws1 = true → forallb JS.isWhiteSpace ws2 = true →
  JS.trim (ws1 ++ s ++ ws2) = JS.trim s.
Proof.
  intros H1 H2. unfold JS.trim. rewrite trimStart_app_ws by exact H1.
  destruct (JS.trimStart s) as [|c r] eqn:E.
  - apply trimStart_nil_ws in E. rewrite trimStart_ws; [reflexivity|].
    now rewrite forallb_app, E, H2.
  - rewrite trimStart_app by now rewrite E. rewrite E. now apply trimEnd_app_ws.
Qed.

Lemma includes_ci_app_l (a s p : JS.str) :
  Spec.includes_ci s p = true → Spec.includes_ci (a ++ s) p = true.
Proof.
  intros H. induction a as [|c a IH]; [exact H|].
  cbn [app Spec.includes_ci]. rewrite IH. apply orb_true_r.
Qed.

Lemma startsWith_ci_app_r (s t p : JS.str) :
  JS.startsWith_ci s p = true → JS.startsWith_ci (s ++ t) p = true.
Proof.
  revert s. induction p as [|a p IH]; intros s H; [apply startsWith_ci_nil|].
  destruct s as [|b s]; [discriminate|]. cbn in *.
  apply andb_true_iff in H as [-> H]. now apply IH.
Qed.

Lemma includes_ci_app_r (s t p : JS.str) :
  Spec.includes_ci s p = true → Spec.includes_ci (s ++ t) p = true.
Proof.
  induction s as [|c s IH]; cbn [Spec.includes_ci]; intros H.
  - rewrite orb_false_r in H. cbn [app].
    destruct p; [|discriminate]. destruct t; reflexivity.
  - apply orb_true_iff in H as [H|H]; cbn [app Spec.includes_ci].
    + pose proof (startsWith_ci_app_r (c :: s) t p H) as H'. cbn [app] in H'.
      now rewrite H'.
    + rewrite (IH H). apply orb_true_r.
Qed.

(** The handler reads of the message its chat, whether the gate ignores
    it, and its cleaned text. *)
Lemma on_message_ext (env : Env) (m m' : Message) :
  msg_chat m' = msg_chat m → ignored env m' = ignored env m →
  cleanedText env m' = cleanedText env m →
  on_message env m' = on_message env m.
Proof.
  intros Hc Hi Ht. unfold on_message. rewrite Hi, Ht.
  unfold add_command, add_handle, report. now rewrite Hc.
Qed.

(** X20.  In a private chat, white space before and after the text makes
    no difference to what the handler does, for a text without the mention
    in any letter case. *)
Theorem surrounding_white_space_is_ignored
    (env : Env) (m m' : Message) (ws1 ws2 : JS.str) (w : World) :
  msg_chat m' = msg_chat m →
  chat_type (msg_chat m) = JS.lit "private" →
  text_of m' = ws1 ++ text_of m ++ ws2 →
  forallb JS.isWhiteSpace ws1 = true → forallb JS.isWhiteSpace ws2 = true →
  Spec.includes_ci (text_of m') (botUsername env) = false →
  handle_message env m' w = handle_message env m w.
Proof.
  intros Hc Hp Ht H1 H2 Hno.
  assert (Hno' : Spec.includes_ci (text_of m) (botUsername env) = false).
  { destruct (Spec.includes_ci (text_of m) (botUsername env)) eqn:E; [|reflexivity].
    rewrite Ht in Hno. rewrite <- Hno. symmetry.
    now apply includes_ci_app_l, includes_ci_app_r. }
  unfold handle_message. rewrite (on_message_ext env m m'); [reflexivity|exact Hc| |].
  - unfold ignored. rewrite Hc. now rewrite !bool_decide_eq_true_2 by exact Hp.
  - unfold cleanedText. rewrite (removeAll_ci_none _ _ Hno), (removeAll_ci_none _ _ Hno').
    rewrite Ht. now apply trim_padded.
Qed.

Lemma surrounding_white_space_is_ignored_witness :
  handle_message Demo.env (Demo.private_msg "   /add tourist  ") Demo.fresh
  = handle_message Demo.env (Demo.private_msg "/add tourist") Demo.fresh.
Proof.
  apply (surrounding_white_space_is_ignored Demo.env
           (Demo.private_msg "/add tourist") (Demo.private_msg "   /add tourist  ")
           (JS.lit "   ") (JS.lit "  ") Demo.fresh); reflexivity.
Defined.

(** X21.  A text that begins with the mention in its exact letter case,
    and has no other mention in any letter case, passes the gate of any
    chat and is handled as the rest of the text, trimmed. *)
Theorem leading_mention_is_stripped (env : Env) (msg : Message) (rest : JS.str) :
  botUsername env ≠ [] →
  text_of msg = botUsername env ++ rest →
  Spec.includes_ci rest (botUsername env) = false →
  ignored env msg = false ∧ cleanedText env msg = JS.trim rest.
Proof.
  intros Hne Ht Hno. split.
  - unfold ignored. rewrite Ht, includes_app. apply andb_false_r.
  - unfold cleanedText. rewrite Ht.
    rewrite removeAll_ci_head by (try apply startsWith_ci_app; exact Hne).
    rewrite drop_app_length. now rewrite (removeAll_ci_none _ _ Hno).
Qed.

Lemma leading_mention_is_stripped_witness :
  ignored Demo.env (Demo.group_msg "@CpTrackBuddybot /add tourist") = false
  ∧ cleanedText Demo.env (Demo.group_msg "@CpTrackBuddybot /add tourist")
    = JS.trim (JS.lit " /add tourist").
Proof.
  apply (leading_mention_is_stripped Demo.env
           (Demo.group_msg "@CpTrackBuddybot /add tourist") (JS.lit " /add tourist"));
    [discriminate | reflexivity | reflexivity].
Defined.

(** ** The pieces of a split *)

Lemma split_nonempty (sep : N) (s : JS.str) : JS.split sep s ≠ [].
Proof.
  destruct s as [|c s]; cbn [JS.split]; [discriminate|].
  destruct (N.eqb c sep); [discriminate|]. destruct (JS.split sep s); discriminate.
Qed.

(** X22.  The pieces of [split] hold no separator, and joined by the
    separator they give the text back; there is one piece more than there
    are separators in the text. *)
Theorem split_join (sep : N) (s : JS.str) :
  join sep (JS.split sep s) = s
  ∧ Forall (fun piece => sep ∉ piece) (JS.split sep s)
  ∧ length (JS.split sep s) = S (length (List.filter (N.eqb sep) s)).
Proof.
  split; [|split; [apply split_no_sep|]].
  - induction s as [|c s IH]; [reflexivity|]. cbn [JS.split].
    pose proof (split_nonempty sep s) as Hne.
    destruct (N.eqb_spec c sep) as [->|Hc].
    + destruct (JS.split sep s) as [|piece rest]; [done|].
      cbn [join app]. cbn [join] in IH. now rewrite IH.
    + destruct (JS.split sep s) as [|piece rest]; [done|].
      destruct rest as [|piece' rest]; cbn [join app] in *; now rewrite IH.
  - induction s as [|c s IH]; [reflexivity|]. cbn [JS.split List.filter].
    pose proof (split_nonempty sep s) as Hne. rewrite (N.eqb_sym sep c).
    destruct (N.eqb c sep).
    + cbn [length]. now rewrite IH.
    + destruct (JS.split sep s) as [|piece rest]; [done|]. exact IH.
Qed.

(** ** Start-up values *)

(** X18.  The webhook URL is the fixed address of the service followed by
    the path of the webhook route, whatever the environment variable
    [RENDER_EXTERNAL_URL] holds; it is never missing. *)
Theorem WEBHOOK_URL_ignores_render_url (TOKEN : JS.str) (renderUrl : option JS.str) :
  WEBHOOK_URL TOKEN renderUrl
  = Some (JS.lit "https://your-service.onrender.com" ++ webhook_route TOKEN).
Proof.
  unfold WEBHOOK_URL, explicitWebhook, webhook_route. cbn [JS.truthy app JS.lit].
  reflexivity.
Qed.

Lemma includes_length (s p : JS.str) :
  JS.includes s p = true → (length p ≤ length s)%nat.
Proof.
  assert (S : ∀ s p, JS.startsWith s p = true → (length p ≤ length s)%nat).
  { clear. intros s p. revert s. induction p as [|a p IH]; intros s H; cbn; [lia|].
    destruct s as [|b s]; [discriminate|]. cbn in H.
    apply andb_true_iff in H as [_ H]. apply IH in H. cbn. lia. }
  induction s as [|c s IH]; cbn [JS.includes]; intros H.
  - rewrite orb_false_r in H. now apply S.
  - apply orb_true_iff in H as [H|H]; [now apply S|]. apply IH in H. cbn. lia.
Qed.

(** X19.  Whatever [getMe] does, the mention token is [@] followed by at
    least one code unit.  So in a chat that is not private a message
    without text, or with a text of one code unit, is ignored. *)
Theorem short_texts_are_ignored_in_groups (r : GetMe) :
  (∃ c name, botUsername_after r = 64%N :: c :: name)
  ∧ ∀ (env : Env) (msg : Message) (w : World),
      botUsername env = botUsername_after r →
      chat_type (msg_chat msg) ≠ JS.lit "private" →
      (length (text_of msg) ≤ 1)%nat →
      handle_message env msg w = (Fulfilled, w).
Proof.
  assert (H : ∃ c name, botUsername_after r = 64%N :: c :: name).
  { destruct r as [|[[[|c name]|]|]]; cbn; eauto. }
  split; [exact H|].
  intros env msg w Hbot Hgroup Hshort. destruct H as (c & name & E).
  unfold handle_message, on_message, ignored.
  rewrite bool_decide_eq_false_2 by exact Hgroup.
  destruct (JS.includes (text_of msg) (botUsername env)) eqn:Hin; [|reflexivity].
  apply includes_length in Hin. rewrite Hbot, E in Hin. cbn [length] in Hin. lia.
Qed.

Lemma short_texts_are_ignored_in_groups_witness :
  handle_message Demo.env
    {| msg_chat := Demo.group_chat; msg_text := None |} Demo.fresh
  = (Fulfilled, Demo.fresh).
Proof.
  apply (proj2 (short_texts_are_ignored_in_groups GetMeThrows) Demo.env
           {| msg_chat := Demo.group_chat; msg_text := None |} Demo.fresh);
    [reflexivity | discriminate | cbn; lia].
Defined.
